(** * OTUI editor core: indentation parser, serializer and image lookup

    A shallow embedding of [otui_editor_pro.py]: the [OTUIParser] class
    ([parse_text], [to_string]) and the image utilities
    ([collect_image_sources], [discover_images_base], [resolve_image]),
    followed by the properties proved about them. *)

From Stdlib Require Import String Ascii.
From Stdlib Require Import List ZArith NArith Bool Lia.
Import ListNotations.
Open Scope Z_scope.

(** ** Python strings

    A Python [str] is a sequence of Unicode code points.  A code point is
    a number, a string is the list of its code points; literals are written
    with [py]. *)

Definition char := N.
Definition str := list char.

Definition py (s : string) : str := map N_of_ascii (list_ascii_of_string s).

Definition char_eqb (a b : char) : bool := N.eqb a b.

Fixpoint str_eqb (a b : str) : bool :=
  match a, b with
  | [], [] => true
  | x :: a', y :: b' => char_eqb x y && str_eqb a' b'
  | _, _ => false
  end.

Definition LF : char := 10%N.
Definition CR : char := 13%N.
Definition SPACE : char := 32%N.
Definition COLON : char := 58%N.
Definition SLASH : char := 47%N.
Definition BACKSLASH : char := 92%N.
Definition DOT : char := 46%N.
Definition SQUOTE : char := 39%N.
Definition DQUOTE : char := 34%N.

(** The code points for which [str.isspace] holds: the characters that
    [strip], [lstrip] and [rstrip] remove when called without argument. *)
Definition is_space (c : char) : bool :=
  ((9 <=? c) && (c <=? 13) || (28 <=? c) && (c <=? 32) || (c =? 133) || (c =? 160)
   || (c =? 5760) || (8192 <=? c) && (c <=? 8202) || (c =? 8232) || (c =? 8233)
   || (c =? 8239) || (c =? 8287) || (c =? 12288))%N.

(** The line boundaries of [str.splitlines]. *)
Definition is_linebreak (c : char) : bool :=
  ((10 <=? c) && (c <=? 13) || (28 <=? c) && (c <=? 30) || (c =? 133)
   || (c =? 8232) || (c =? 8233))%N.

Fixpoint drop_while (f : char -> bool) (s : str) : str :=
  match s with
  | [] => []
  | c :: s' => if f c then drop_while f s' else s
  end.

Definition drop_while_end (f : char -> bool) (s : str) : str :=
  rev (drop_while f (rev s)).

Definition mem_char (cs : str) (c : char) : bool := existsb (char_eqb c) cs.

(** [s.lstrip()], [s.rstrip()], [s.strip()] *)
Definition lstrip (s : str) : str := drop_while is_space s.
Definition rstrip (s : str) : str := drop_while_end is_space s.
Definition strip (s : str) : str := rstrip (lstrip s).

(** [s.lstrip(cs)], [s.rstrip(cs)], [s.strip(cs)] *)
Definition lstrip_chars (cs s : str) : str := drop_while (mem_char cs) s.
Definition rstrip_chars (cs s : str) : str := drop_while_end (mem_char cs) s.
Definition strip_chars (cs s : str) : str := rstrip_chars cs (lstrip_chars cs s).

(** [s.startswith(p)] *)
Fixpoint startswith (p s : str) : bool :=
  match p, s with
  | [], _ => true
  | x :: p', y :: s' => char_eqb x y && startswith p' s'
  | _ :: _, [] => false
  end.

(** [s.endswith(p)] *)
Definition endswith (p s : str) : bool := startswith (rev p) (rev s).

(** [s.split(":", 1)] when [":" in s]: the text before the first colon and
    the text after it. *)
Fixpoint split_colon (s : str) : option (str * str) :=
  match s with
  | [] => None
  | c :: s' =>
      if char_eqb c COLON then Some ([], s')
      else match split_colon s' with
           | Some (a, b) => Some (c :: a, b)
           | None => None
           end
  end.

(** [s.splitlines()]: [cur] holds the current line, reversed.  A carriage
    return followed by a line feed is one boundary: [after_cr] tells that
    the character before was a carriage return.  A boundary at the very end
    opens no further line. *)
Fixpoint splitlines_from (after_cr : bool) (cur : str) (s : str) : list str :=
  match s with
  | [] => match cur with [] => [] | _ => [rev cur] end
  | c :: s' =>
      if after_cr && char_eqb c LF then splitlines_from false cur s'
      else if is_linebreak c then rev cur :: splitlines_from (char_eqb c CR) [] s'
      else splitlines_from false (c :: cur) s'
  end.

Definition splitlines (s : str) : list str := splitlines_from false [] s.

(** [sep.join(parts)] *)
Fixpoint join (sep : str) (parts : list str) : str :=
  match parts with
  | [] => []
  | [p] => p
  | p :: rest => p ++ sep ++ join sep rest
  end.

(** [c * n] for a one-character string; a negative count gives the empty
    string. *)
Definition str_mul (c : char) (n : Z) : str := repeat c (Z.to_nat n).

(** [len(s)] *)
Definition len (s : str) : Z := Z.of_nat (length s).

(** A text given by its lines, each one ended by a line feed. *)
Definition text_of (ls : list string) : str :=
  concat (map (fun l => py l ++ [LF]) ls).

(** ** The document model *)

(** [OTUINode] *)
Unset Elimination Schemes.
Inductive OTUINode : Type :=
  Node { tag : str; value : str; depth : Z; children : list OTUINode }.
Set Elimination Schemes.

(** Outcome of a run: a value, or the Python exception that ends it.
    [BadReference] stands for the use of a reference that names no object;
    Python has no such state and [parse_text] never reaches it
    (see [parse_lines_frames]). *)
Inductive exn := ZeroDivisionError | IndexError | BadReference.
Inductive result (A : Type) := Ok (a : A) | Raise (e : exn).
Arguments Ok {A} a.
Arguments Raise {A} e.

Definition bind {A B} (r : result A) (k : A -> result B) : result B :=
  match r with Ok a => k a | Raise e => Raise e end.

Notation "x <- r ;; k" := (bind r (fun x => k))
  (at level 61, r at next level, right associativity).

(** *** Object references

    [parse_text] builds the tree in place: a node is appended to its
    parent's [children] and pushed on [stack], and later lines append to it
    through the stack entry.  The tree under [root] is the store; a
    reference to a node is the list of child indices that leads to it from
    [root]. *)
Definition ref := list nat.

Fixpoint get (n : OTUINode) (r : ref) : option OTUINode :=
  match r with
  | [] => Some n
  | i :: r' =>
      match nth_error (children n) i with
      | Some c => get c r'
      | None => None
      end
  end.

Fixpoint update_nth {A} (f : A -> A) (i : nat) (l : list A) : list A :=
  match l, i with
  | [], _ => []
  | x :: l', O => f x :: l'
  | x :: l', S i' => x :: update_nth f i' l'
  end.

(** [n.children.append(c)] *)
Definition add_child (n c : OTUINode) : OTUINode :=
  Node (tag n) (value n) (depth n) (children n ++ [c]).

(** [x.children.append(c)] for the node [x] that [r] refers to. *)
Fixpoint append_at (n : OTUINode) (r : ref) (c : OTUINode) : OTUINode :=
  match r with
  | [] => add_child n c
  | i :: r' =>
      Node (tag n) (value n) (depth n)
           (update_nth (fun x => append_at x r' c) i (children n))
  end.

(** ** [OTUIParser.parse_text] *)

Section Parser.

Variable indent_size : Z.

(** [depth_of(raw, stripped)] *)
Definition depth_of (raw stripped : str) : result Z :=
  if indent_size =? 0 then Raise ZeroDivisionError
  else Ok ((len raw - len stripped) / indent_size).

(** The state of the loop: the tree under [root] and [stack], the
    references to the open nodes, the last one pushed first. *)
Definition pstate : Type := OTUINode * list ref.

(** [while stack and d <= stack[-1].depth: stack.pop()] *)
Fixpoint pop_while (root : OTUINode) (d : Z) (stack : list ref) : result (list ref) :=
  match stack with
  | [] => Ok []
  | r :: rest =>
      match get root r with
      | None => Raise BadReference
      | Some top => if d <=? depth top then pop_while root d rest else Ok stack
      end
  end.

(** [stack[-1].children.append(node); stack.append(node)] *)
Definition attach (root : OTUINode) (stack : list ref) (node : OTUINode) : result pstate :=
  match stack with
  | [] => Raise IndexError
  | r :: _ =>
      match get root r with
      | None => Raise BadReference
      | Some top =>
          Ok (append_at root r node, (r ++ [length (children top)]) :: stack)
      end
  end.

(** The body of [for raw in lines]. *)
Definition parse_line (st : pstate) (raw : str) : result pstate :=
  let '(root, stack) := st in
  let raw_line := rstrip_chars [LF] raw in
  let stripped := lstrip raw_line in
  if str_eqb stripped [] then Ok st
  else if startswith (py "//") stripped then
    d <- depth_of raw_line stripped ;;
    stack <- pop_while root d stack ;;
    let node := Node (py "//") (strip (skipn 2 stripped)) d [] in
    attach root stack node
  else
    d <- depth_of raw_line stripped ;;
    stack <- pop_while root d stack ;;
    let '(tag, val) :=
      match split_colon stripped with
      | Some (tag, val) => (strip tag, strip val)
      | None => (strip stripped, [])
      end in
    let node := Node tag val d [] in
    attach root stack node.

Fixpoint parse_lines (st : pstate) (lines : list str) : result pstate :=
  match lines with
  | [] => Ok st
  | raw :: rest => st' <- parse_line st raw ;; parse_lines st' rest
  end.

Definition parse_text (text : str) : result OTUINode :=
  let lines := splitlines text in
  let root := Node (py "Root") [] (-1) [] in
  let stack := [ [] ] in
  st <- parse_lines (root, stack) lines ;;
  Ok (fst st).

End Parser.

(** ** [OTUIParser.to_string] *)

Section Serializer.

Variable indent_size : Z.

(** [write(n, d)]; the list [out] it appends to is passed through.  The
    depth of Python's call stack is not bounded here. *)
Fixpoint write (n : OTUINode) (d : Z) (out : list str) : list str :=
  match n with
  | Node tag value _ children =>
      if str_eqb tag (py "Root") then
        fold_left (fun out ch => write ch 0 out) children out
      else
        let indent := str_mul SPACE (d * indent_size) in
        if str_eqb tag (py "//") then
          out ++ [indent ++ py "// " ++ value]
        else
          let out :=
            match value with
            | _ :: _ => out ++ [indent ++ tag ++ py ": " ++ value]
            | [] => out ++ [indent ++ tag]
            end in
          fold_left (fun out ch => write ch (d + 1) out) children out
  end.

Definition to_string (root : OTUINode) : str :=
  let out := write root 0 [] in
  join [LF] out ++ (match out with _ :: _ => [LF] | [] => [] end).

End Serializer.

(** ** Trees *)

(** Induction over a tree and the trees below it. *)
Fixpoint OTUINode_ind (P : OTUINode -> Prop)
    (IH : forall t v d cs, Forall P cs -> P (Node t v d cs))
    (n : OTUINode) {struct n} : P n :=
  match n with
  | Node t v d cs =>
      IH t v d cs
         ((fix all (l : list OTUINode) : Forall P l :=
             match l with
             | [] => Forall_nil P
             | c :: l' => Forall_cons c (OTUINode_ind P IH c) (all l')
             end) cs)
  end.

(** Equality of trees up to the stored depth: same tags, same values,
    same children in the same order. *)
Fixpoint tree_eqb (a b : OTUINode) : bool :=
  match a, b with
  | Node t1 v1 _ c1, Node t2 v2 _ c2 =>
      str_eqb t1 t2 && str_eqb v1 v2 &&
      (fix all2 (l1 l2 : list OTUINode) : bool :=
         match l1, l2 with
         | [], [] => true
         | x :: l1', y :: l2' => tree_eqb x y && all2 l1' l2'
         | _, _ => false
         end) c1 c2
  end.

(** Number of nodes of a tree. *)
Fixpoint size (n : OTUINode) : nat :=
  match n with
  | Node _ _ _ cs => S (fold_right (fun c k => (size c + k)%nat) O cs)
  end.

(** [all_nodes P n]: [P] holds of [n] and of every node below it. *)
Fixpoint all_nodes (P : OTUINode -> bool) (n : OTUINode) : bool :=
  match n with
  | Node _ _ _ cs => P n && forallb (all_nodes P) cs
  end.

(** Every node below [n], [n] included, has a smaller depth than each of
    its children. *)
Definition deeper_children (n : OTUINode) : bool :=
  forallb (fun c => depth n <? depth c) (children n).

Definition depth_increasing (n : OTUINode) : bool := all_nodes deeper_children n.

(** ** The open nodes as frames

    During [parse_text] the stack is the right-most branch of the tree:
    every open node is the last child of the open node below it.  A frame
    is an open node with the children it has so far, the open child left
    out; [zip] hangs each frame under the next and gives the tree back. *)

Definition fstate : Type := OTUINode * list OTUINode.

Fixpoint zip (top : OTUINode) (below : list OTUINode) : OTUINode :=
  match below with
  | [] => top
  | g :: rest => zip (add_child g top) rest
  end.

(** The reference to the node that stands on the frames [below]. *)
Fixpoint ref_of (below : list OTUINode) : ref :=
  match below with
  | [] => []
  | g :: rest => ref_of rest ++ [length (children g)]
  end.

(** The stack when the frames under the top one are [below]. *)
Fixpoint refs_of (below : list OTUINode) : list ref :=
  ref_of below ::
  match below with
  | [] => []
  | _ :: rest => refs_of rest
  end.

(** Closing the frames whose depth is at least [d]. *)
Fixpoint flush (d : Z) (top : OTUINode) (below : list OTUINode) : option fstate :=
  if d <=? depth top then
    match below with
    | [] => None
    | g :: rest => flush d (add_child g top) rest
    end
  else Some (top, below).

(** [f] applied to the node that [r] refers to. *)
Fixpoint modify (f : OTUINode -> OTUINode) (n : OTUINode) (r : ref) : OTUINode :=
  match r with
  | [] => f n
  | i :: r' => Node (tag n) (value n) (depth n) (update_nth (fun x => modify f x r') i (children n))
  end.

Section Frames.

Variable indent_size : Z.

(** What a line contributes: nothing when it is blank, else a node
    without children. *)
Definition line_node (raw : str) : result (option OTUINode) :=
  let raw_line := rstrip_chars [LF] raw in
  let stripped := lstrip raw_line in
  if str_eqb stripped [] then Ok None
  else
    d <- depth_of indent_size raw_line stripped ;;
    if startswith (py "//") stripped then
      Ok (Some (Node (py "//") (strip (skipn 2 stripped)) d []))
    else
      match split_colon stripped with
      | Some (tag, val) => Ok (Some (Node (strip tag) (strip val) d []))
      | None => Ok (Some (Node (strip stripped) [] d []))
      end.

Definition fstep (st : fstate) (node : OTUINode) : result fstate :=
  match flush (depth node) (fst st) (snd st) with
  | None => Raise IndexError
  | Some (t, b) => Ok (node, t :: b)
  end.

Fixpoint frun (st : fstate) (lines : list str) : result fstate :=
  match lines with
  | [] => Ok st
  | raw :: rest =>
      o <- line_node raw ;;
      match o with
      | None => frun st rest
      | Some node => st' <- fstep st node ;; frun st' rest
      end
  end.

End Frames.

(** The tree [parse_text] starts from. *)
Definition root0 : OTUINode := Node (py "Root") [] (-1) [].


(** The lowest frame: the root, while [parse_text] runs. *)
Fixpoint bottom (top : OTUINode) (below : list OTUINode) : OTUINode :=
  match below with
  | [] => top
  | g :: rest => bottom g rest
  end.

(** Each frame is deeper than the frame under it. *)
Fixpoint chain (top : OTUINode) (below : list OTUINode) : Prop :=
  match below with
  | [] => True
  | g :: rest => depth g < depth top /\ chain g rest
  end.

(** Nodes held by the frames. *)
Definition weight (top : OTUINode) (below : list OTUINode) : nat :=
  (size top + fold_right (fun c k => size c + k) O below)%nat.

(** The lines [parse_text] does not skip. *)
Definition nonblank (raw : str) : bool :=
  negb (str_eqb (lstrip (rstrip_chars [LF] raw)) []).

Fixpoint take_while (f : char -> bool) (s : str) : str :=
  match s with
  | [] => []
  | c :: s' => if f c then c :: take_while f s' else []
  end.

(** Number of whitespace characters a line starts with. *)
Definition leading_ws (raw : str) : Z := len (take_while is_space raw).

(** ** The serializer as the specification words it

    A depth-first pre-order walk over everything below the root, each node
    at the render depth of its parent plus one, the children of the root
    at 0; the stored depth is not read. *)

Fixpoint preorder (d : Z) (n : OTUINode) : list (Z * OTUINode) :=
  match n with
  | Node _ _ _ cs => (d, n) :: flat_map (preorder (d + 1)) cs
  end.

Definition render_line (indent_size : Z) (dn : Z * OTUINode) : str :=
  let (d, n) := dn in
  let indent := repeat SPACE (Z.to_nat (indent_size * d)) in
  if str_eqb (tag n) (py "//") then indent ++ py "// " ++ value n
  else if str_eqb (value n) [] then indent ++ tag n
  else indent ++ tag n ++ py ": " ++ value n.

Definition serialize_spec (indent_size : Z) (root : OTUINode) : str :=
  let lines := map (render_line indent_size) (flat_map (preorder 0) (children root)) in
  match lines with
  | [] => []
  | _ :: _ => join [LF] lines ++ [LF]
  end.

(** *** Shapes of nodes *)

(** The tag is not the one that marks the root. *)
Definition not_root_tag (n : OTUINode) : bool := negb (str_eqb (tag n) (py "Root")).

(** A comment node has no children. *)
Definition comment_leaf (n : OTUINode) : bool :=
  implb (str_eqb (tag n) (py "//"))
        (match children n with [] => true | _ :: _ => false end).

(** The node has a tag or a value. *)
Definition has_text (n : OTUINode) : bool :=
  negb (str_eqb (tag n) [] && str_eqb (value n) []).

Definition plain_node (n : OTUINode) : bool := not_root_tag n && comment_leaf n.

Definition reparsed_node (n : OTUINode) : bool := plain_node n && has_text n.

(** *** Shapes of the strings that [parse_text] stores *)

Definition no_break (s : str) : bool := forallb (fun c => negb (is_linebreak c)) s.
Definition trimmed (s : str) : bool := str_eqb (lstrip s) s && str_eqb (rstrip s) s.
Definition no_colon (s : str) : bool := forallb (fun c => negb (char_eqb c COLON)) s.

Definition clean_node (n : OTUINode) : bool :=
  no_break (tag n) && no_break (value n)
  && trimmed (tag n) && trimmed (value n)
  && no_colon (tag n)
  && implb (startswith (py "//") (tag n)) (str_eqb (tag n) (py "//")).

(** The tree with every stored depth replaced by the render depth. *)
Fixpoint redepth (d : Z) (n : OTUINode) : OTUINode :=
  match n with
  | Node t v _ cs => Node t v d (map (redepth (d + 1)) cs)
  end.

(** *** Consistent indentation

    Every non-blank line starts with space characters only, their number
    is a multiple of the indent size, the first line stands at depth 0 and
    no line is more than one level deeper than the line before it. *)
Fixpoint consistent_from (indent_size : Z) (prev : Z) (lines : list str) : bool :=
  match lines with
  | [] => true
  | l :: rest =>
      if nonblank l then
        forallb (char_eqb SPACE) (take_while is_space l)
        && (leading_ws l mod indent_size =? 0)
        && (leading_ws l / indent_size <=? prev + 1)
        && consistent_from indent_size (leading_ws l / indent_size) rest
      else consistent_from indent_size prev rest
  end.

Definition consistent_indent (indent_size : Z) (text : str) : bool :=
  consistent_from indent_size (-1) (splitlines text).

(** ** Paths

    [pathlib] paths in their POSIX flavour: an anchor ("", "/" or "//")
    and the components after it.  Empty components and "." are dropped
    when a string is read, ".." is kept. *)

Record Path : Type := mkPath { anchor : str; parts : list str }.

(** [s.split(sep)] for a one-character separator. *)
Fixpoint split_on_from (sep : char) (cur : str) (s : str) : list str :=
  match s with
  | [] => [rev cur]
  | c :: s' =>
      if char_eqb c sep then rev cur :: split_on_from sep [] s'
      else split_on_from sep (c :: cur) s'
  end.

Definition split_on (sep : char) (s : str) : list str := split_on_from sep [] s.

(** [Path(s)] *)
Definition parse_path (s : str) : Path :=
  let slashes := length (take_while (fun c => char_eqb c SLASH) s) in
  mkPath
    (match slashes with
     | O => []
     | 2%nat => [SLASH; SLASH]
     | _ => [SLASH]
     end)
    (filter (fun p => negb (str_eqb p []) && negb (str_eqb p [DOT]))
            (split_on SLASH s)).

(** [p / q] for two paths, and [p / s] for a string. *)
Definition join_path (p q : Path) : Path :=
  match anchor q with
  | [] => mkPath (anchor p) (parts p ++ parts q)
  | _ :: _ => q
  end.

Definition join_str (p : Path) (s : str) : Path := join_path p (parse_path s).

(** [p.parent] *)
Definition parent (p : Path) : Path := mkPath (anchor p) (removelast (parts p)).

(** [p.name] *)
Definition name (p : Path) : str := last (parts p) [].

(** [str(p)] *)
Definition path_str (p : Path) : str :=
  match anchor p, parts p with
  | [], [] => [DOT]
  | a, ps => a ++ join [SLASH] ps
  end.

Fixpoint strs_eqb (a b : list str) : bool :=
  match a, b with
  | [], [] => true
  | x :: a', y :: b' => str_eqb x y && strs_eqb a' b'
  | _, _ => false
  end.

Definition path_eqb (p q : Path) : bool :=
  str_eqb (anchor p) (anchor q) && strs_eqb (parts p) (parts q).

(** [os.path.splitext(p)]: the extension starts at the last dot of the
    last component, unless only dots stand before it. *)
Definition splitext (p : str) : str * str :=
  let r := rev p in
  let plain := fun c => negb (char_eqb c DOT || char_eqb c SLASH) in
  match drop_while plain r with
  | c :: before =>
      if char_eqb c DOT
         && existsb (fun x => negb (char_eqb x DOT))
                    (take_while (fun x => negb (char_eqb x SLASH)) before)
      then (rev before, DOT :: rev (take_while plain r))
      else (p, [])
  | [] => (p, [])
  end.

(** ** The host

    What the image utilities take from outside the program: the Unicode
    case tables ([str.lower], the letter comparison of [re.IGNORECASE])
    and the filesystem as it is at the time of the call
    ([Path.is_dir], [Path.exists], [Path.resolve], [os.walk],
    [Path.read_text], which fails with [None]). *)
Record Host : Type := {
  lower : str -> str;
  ieq : char -> char -> bool;
  is_dir : Path -> bool;
  path_exists : Path -> bool;
  path_resolve : Path -> Path;
  os_walk : Path -> list (str * list str * list str);
  read_text : Path -> option str
}.

Definition IMG_EXTS : list str :=
  [py ".png"; py ".jpg"; py ".jpeg"; py ".bmp"; py ".webp"; py ".gif"].
Definition LIKELY_DIRS : list str :=
  [py "images"; py "textures"; py "icons"; py "img"; py "resources"; py "assets"].

(** *** Dictionaries with string keys, in insertion order *)

Definition dict : Type := list (str * nat).

(** [d[k] = v] *)
Fixpoint dict_set (d : dict) (k : str) (v : nat) : dict :=
  match d with
  | [] => [(k, v)]
  | (k', v') :: rest =>
      if str_eqb k' k then (k', v) :: rest else (k', v') :: dict_set rest k v
  end.

(** [d.get(k, 0)] *)
Fixpoint dict_get (d : dict) (k : str) : nat :=
  match d with
  | [] => O
  | (k', v') :: rest => if str_eqb k' k then v' else dict_get rest k
  end.

(** [max(d.items(), key=lambda kv: kv[1])[0]]: the first key that has the
    greatest value. *)
Definition max_key (d : dict) : option str :=
  match d with
  | [] => None
  | kv :: rest =>
      Some (fst (fold_left (fun best kv => if (snd best <? snd kv)%nat then kv else best)
                           rest kv))
  end.

Definition mem_str (s : str) (l : list str) : bool := existsb (str_eqb s) l.

(** The elements of a list as a set: each one once. *)
Fixpoint as_set (l : list str) : list str :=
  match l with
  | [] => []
  | x :: l' => if mem_str x l' then as_set l' else x :: as_set l'
  end.

(** *** The pattern of the script scan

    [re.finditer(pattern, txt, re.IGNORECASE)], group 1 of each match,
    for the pattern: a double quote, a group made of one or more
    characters other than the double quote, a dot and one of png, jpg,
    jpeg, bmp, gif, webp, then a double quote.  The group holds no quote,
    so it is the whole text between an opening quote and the next quote;
    it matches when it ends in a dot and one of the extensions, with at
    least one character before the dot. *)

Definition RE_EXTS : list str :=
  [py "png"; py "jpg"; py "jpeg"; py "bmp"; py "gif"; py "webp"].

Section Scan.

Variable h : Host.

Fixpoint ieq_str (pat s : str) : bool :=
  match pat, s with
  | [], [] => true
  | x :: pat', y :: s' => ieq h x y && ieq_str pat' s'
  | _, _ => false
  end.

(** [seg] is one character or more, a dot, and [ext] in any case. *)
Definition ends_in_ext (seg ext : str) : bool :=
  let n := length ext in
  let k := (length seg - n - 1)%nat in
  (S n <? length seg)%nat
  && str_eqb (firstn 1 (skipn k seg)) [DOT]
  && ieq_str ext (skipn (S k) seg).

Definition image_literal (seg : str) : bool :=
  existsb (ends_in_ext seg) RE_EXTS.

(** [open] is [None] outside a candidate, else the characters read since
    the last quote, reversed.  A quote that closes a match is consumed; a
    quote that closes no match opens the next candidate. *)
Fixpoint finditer_from (open : option str) (txt : str) : list str :=
  match txt with
  | [] => []
  | c :: txt' =>
      match open with
      | None =>
          if char_eqb c DQUOTE then finditer_from (Some []) txt'
          else finditer_from None txt'
      | Some acc =>
          if char_eqb c DQUOTE then
            if image_literal (rev acc) then rev acc :: finditer_from None txt'
            else finditer_from (Some []) txt'
          else finditer_from (Some (c :: acc)) txt'
      end
  end.

Definition finditer (txt : str) : list str := finditer_from None txt.

End Scan.

(** ** [collect_image_sources] *)

Section Images.

Variable h : Host.

(** [walk(n)]; the list [found] it appends to is passed through. *)
Fixpoint walk_sources (n : OTUINode) (found : list str) : list str :=
  match n with
  | Node tag value _ children =>
      let found :=
        if str_eqb (lower h tag) (py "image-source")
           && negb (str_eqb value [])
        then found ++ [strip_chars [DQUOTE] (strip_chars [SQUOTE] (strip value))]
        else found in
      fold_left (fun found ch => walk_sources ch found) children found
  end.

Definition collect_image_sources (root : OTUINode) : list str :=
  walk_sources root [].

(** ** [discover_images_base] *)

(** [for d in LIKELY_DIRS: p = mod_dir / d; if p.is_dir(): return p] *)
Fixpoint likely_dir (mod_dir : Path) (ds : list str) : option Path :=
  match ds with
  | [] => None
  | d :: rest =>
      let p := join_str mod_dir d in
      if is_dir h p then Some p else likely_dir mod_dir rest
  end.

(** The first walk: per directory, how many of [names] it holds. *)
Definition name_hits (mod_dir : Path) (names : list str) : dict :=
  fold_left
    (fun hits '(r, _, files) =>
       let common := filter (fun f => mem_str f names) (as_set files) in
       match common with
       | _ :: _ => dict_set hits r (length common)
       | [] => hits
       end)
    (os_walk h mod_dir) [].

(** The body of [try] for one script file. *)
Definition lua_file_hits (r f : str) (lua_hits : dict) : dict :=
  match read_text h (join_str (parse_path r) f) with
  | Some txt =>
      fold_left
        (fun lua_hits m =>
           let p := parse_path m in
           let folder := parent (join_path (parse_path r) p) in
           dict_set lua_hits (path_str folder)
                    (dict_get lua_hits (path_str folder) + 1))
        (finditer h txt) lua_hits
  | None => lua_hits
  end.

(** The second walk: per folder, how many image literals point into it. *)
Definition lua_hits (mod_dir : Path) : dict :=
  fold_left
    (fun lua_hits '(r, _, files) =>
       fold_left
         (fun lua_hits f =>
            if endswith (py ".lua") (lower h f) then lua_file_hits r f lua_hits
            else lua_hits)
         files lua_hits)
    (os_walk h mod_dir) [].

Definition discover_images_base (otui_path : Path) (root : OTUINode) : option Path :=
  let mod_dir := parent otui_path in
  match likely_dir mod_dir LIKELY_DIRS with
  | Some p => Some p
  | None =>
      let imgs := collect_image_sources root in
      let names := as_set (map (fun v => name (parse_path v)) imgs) in
      let hits := name_hits mod_dir names in
      match max_key hits with
      | Some best => Some (parse_path best)
      | None =>
          let lua_hits := lua_hits mod_dir in
          match max_key lua_hits with
          | Some best =>
              let bp := parse_path best in
              if is_dir h bp then Some bp else None
          | None => None
          end
      end
  end.

(** ** [resolve_image] *)

(** [val.strip()], then [strip] of the single quote, [strip] of the double
    quote, [replace] of each backslash by a slash and [lstrip] of the
    slash. *)
Definition normalize (val : str) : str :=
  lstrip_chars [SLASH]
    (map (fun c => if char_eqb c BACKSLASH then SLASH else c)
         (strip_chars [DQUOTE] (strip_chars [SQUOTE] (strip val)))).

(** The candidates under [base]: the path itself when its name has an
    extension, else one per image extension. *)
Definition base_candidates (base : Path) (v : str) : list Path :=
  let p := join_str base v in
  match snd (splitext (name p)) with
  | _ :: _ => [p]
  | [] => map (fun e => join_str base (v ++ e)) IMG_EXTS
  end.

(** The files under [otui_dir] with the name of [v], whatever the case. *)
Definition basename_candidates (otui_dir : Path) (v : str) : list Path :=
  let base_name := lower h (name (parse_path v)) in
  flat_map
    (fun '(r, _, files) =>
       map (fun f => join_str (parse_path r) f)
           (filter (fun f => str_eqb (lower h f) base_name) files))
    (os_walk h otui_dir).

Definition candidates (images_base : option Path) (otui_dir : Path) (v : str) : list Path :=
  (match images_base with
   | Some base => base_candidates base v
   | None => []
   end)
  ++ base_candidates otui_dir v
  ++ basename_candidates otui_dir v.

(** [for c in candidates: ...] with the set [seen]. *)
Fixpoint first_existing (seen : list Path) (cs : list Path) : option Path :=
  match cs with
  | [] => None
  | c :: rest =>
      let c := path_resolve h c in
      if existsb (path_eqb c) seen then first_existing seen rest
      else if path_exists h c then Some c
      else first_existing (c :: seen) rest
  end.

Definition resolve_image (images_base : option Path) (otui_dir : Path) (val : str) : option Path :=
  match val with
  | [] => None
  | _ :: _ =>
      let v := normalize val in
      first_existing [] (candidates images_base otui_dir v)
  end.

End Images.

(** *** A host to compute with

    ASCII case tables and a filesystem without links that holds the
    directories [dirs] and the files [files]; [walks] is what [os.walk]
    yields for the document directory. *)

Definition ascii_lower (c : char) : char :=
  if ((65 <=? c) && (c <=? 90))%N then (c + 32)%N else c.

Definition small_host (dirs : list Path) (files : list (Path * str))
    (walks : list (str * list str * list str)) : Host :=
  {| lower := map ascii_lower;
     ieq := fun a b => char_eqb (ascii_lower a) (ascii_lower b);
     is_dir := fun p => existsb (path_eqb p) dirs;
     path_exists := fun p =>
       existsb (path_eqb p) dirs || existsb (fun f => path_eqb p (fst f)) files;
     path_resolve := fun p => p;
     os_walk := fun _ => walks;
     read_text := fun p =>
       match find (fun f => path_eqb p (fst f)) files with
       | Some f => Some (snd f)
       | None => None
       end |}.

(** ** The image lookup as the specification words it *)

(** One candidate per known image extension, in the fixed order, first
    under the images base when there is one, then under the document
    directory. *)
Definition ext_candidates (images_base : option Path) (otui_dir : Path) (v : str) : list Path :=
  (match images_base with
   | Some base => map (fun e => join_str base (v ++ e)) IMG_EXTS
   | None => []
   end)
  ++ map (fun e => join_str otui_dir (v ++ e)) IMG_EXTS.

(** A value that carries no outer whitespace and no outer quote of its
    own: the three [strip] calls leave it as it is, and it is not empty. *)
Definition bare (v : str) : bool :=
  negb (str_eqb v [])
  && str_eqb (strip v) v
  && str_eqb (strip_chars [SQUOTE] v) v
  && str_eqb (strip_chars [DQUOTE] v) v.




(** *** Example filesystems *)

(** The directories /ui/icons and /ui/assets. *)
Definition host_icons : Host :=
  small_host [parse_path (py "/ui/icons"); parse_path (py "/ui/assets")] [] [].

(** /ui/images/icons/play.png next to the document /ui/main.otui. *)
Definition host_play : Host :=
  small_host
    [parse_path (py "/ui"); parse_path (py "/ui/images");
     parse_path (py "/ui/images/icons")]
    [(parse_path (py "/ui/main.otui"), py "Panel");
     (parse_path (py "/ui/images/icons/play.png"), [])]
    [(py "/ui", [py "images"], [py "main.otui"]);
     (py "/ui/images", [py "icons"], []);
     (py "/ui/images/icons", [], [py "play.png"])].

(** A file named .png in the images base. *)
Definition host_dotpng : Host :=
  small_host
    [parse_path (py "/ui"); parse_path (py "/ui/images")]
    [(parse_path (py "/ui/images/.png"), [])]
    [(py "/ui", [py "images"], []); (py "/ui/images", [], [py ".png"])].

(** /ui/x.png next to the document. *)
Definition host_x : Host :=
  small_host
    [parse_path (py "/ui")]
    [(parse_path (py "/ui/x.png"), [])]
    [(py "/ui", [], [py "x.png"])].






(** ** More on trees *)

(** A node without its children. *)
Definition label (n : OTUINode) : OTUINode :=
  Node (tag n) (value n) (depth n) [].

(** The nodes of a tree in pre-order, the tree itself first. *)
Fixpoint nodes (n : OTUINode) : list OTUINode :=
  match n with
  | Node _ _ _ cs => n :: flat_map nodes cs
  end.

(** The nodes that the lines of a text give, in the order of the lines. *)
Definition line_nodes (indent_size : Z) (lines : list str) : list OTUINode :=
  flat_map
    (fun raw =>
       match line_node indent_size raw with
       | Ok (Some node) => [node]
       | _ => []
       end)
    lines.

(** The labels held by the frames, from the lowest frame up. *)
Fixpoint frame_labels (top : OTUINode) (below : list OTUINode) : list OTUINode :=
  match below with
  | [] => map label (nodes top)
  | g :: rest => frame_labels g rest ++ map label (nodes top)
  end.

(** A non-blank line that starts with whitespace. *)
Definition indented (raw : str) : bool :=
  nonblank raw && (0 <? leading_ws raw).

(** ** More on the image lookup *)

(** A node that names an image: its tag is image-source, in any case, and
    its value is not empty. *)
Definition is_image_source (h : Host) (n : OTUINode) : bool :=
  str_eqb (lower h (tag n)) (py "image-source") && negb (str_eqb (value n) []).

(** The value as [collect_image_sources] stores it. *)
Definition unquote (v : str) : str :=
  strip_chars [DQUOTE] (strip_chars [SQUOTE] (strip v)).

(** [s.replace] of each backslash by a slash. *)
Definition slashes (s : str) : str :=
  map (fun c => if char_eqb c BACKSLASH then SLASH else c) s.


(** The names of the images that the tree refers to. *)
Definition image_names (h : Host) (root : OTUINode) : list str :=
  as_set (map (fun v => name (parse_path v)) (collect_image_sources h root)).

(** What [os.walk] yields for one directory: its path and its files. *)
Definition dirpath (e : str * list str * list str) : str := fst (fst e).
Definition filenames (e : str * list str * list str) : list str := snd e.

(** How many of [names] a directory holds. *)
Definition held (names : list str) (e : str * list str * list str) : nat :=
  length (filter (fun f => mem_str f names) (as_set (filenames e))).

(** /ui/old holds play.png, /ui/gfx holds play.png and stop.png. *)
Definition host_gfx : Host :=
  small_host
    [parse_path (py "/ui"); parse_path (py "/ui/old"); parse_path (py "/ui/gfx")]
    [(parse_path (py "/ui/main.otui"), py "Panel");
     (parse_path (py "/ui/old/play.png"), []);
     (parse_path (py "/ui/gfx/play.png"), []);
     (parse_path (py "/ui/gfx/stop.png"), [])]
    [(py "/ui", [py "old"; py "gfx"], [py "main.otui"]);
     (py "/ui/old", [], [py "play.png"]);
     (py "/ui/gfx", [], [py "play.png"; py "stop.png"])].

(** ** The editor: tree widget, text and history

    Of [OTUIEditor] the state that its methods compute with: the text of
    the [QPlainTextEdit], the two history stacks, the current root and the
    items of the [QTreeWidget] with the current item.  The preview, the
    status bar and the dialogs show this state and do not change it; they
    are left out. *)

(** [QTreeWidgetItem]: the texts of its two columns and its child items. *)
Unset Elimination Schemes.
Inductive QTreeWidgetItem : Type :=
  Item { text0 : str; text1 : str; items : list QTreeWidgetItem }.
Set Elimination Schemes.

(** [pitem.addChild(it)] *)
Definition addChild (pitem it : QTreeWidgetItem) : QTreeWidgetItem :=
  Item (text0 pitem) (text1 pitem) (items pitem ++ [it]).

(** [add(pitem, node)] of [_populate_tree]: [pitem] with an item added for
    each child of [node], filled in the same way. *)
Fixpoint add (pitem : QTreeWidgetItem) (node : OTUINode) : QTreeWidgetItem :=
  match node with
  | Node _ _ _ cs =>
      fold_left
        (fun pitem ch => addChild pitem (add (Item (tag ch) (value ch) []) ch))
        cs pitem
  end.

(** [_populate_tree(root)]: the top-level items of the cleared widget. *)
Definition populate_tree (root : OTUINode) : list QTreeWidgetItem :=
  [add (Item (py "Root") [] []) root].

(** [rec(item, depth)] of [_root_from_tree_widget] *)
Fixpoint rec (item : QTreeWidgetItem) (depth : Z) : OTUINode :=
  match item with
  | Item t0 t1 kids => Node t0 t1 depth (map (fun c => rec c (depth + 1)) kids)
  end.

(** [_root_from_tree_widget()] for the top-level items [tree]. *)
Definition root_from_tree_widget (tree : list QTreeWidgetItem) : OTUINode :=
  Node (py "Root") [] (-1)
       (match tree with
        | root_item :: _ => map (fun c => rec c 0) (items root_item)
        | [] => []
        end).

(** [it.setText(0, a); it.setText(1, b)] for the item that [r] refers to:
    the index of a top-level item, then child indices. *)
Fixpoint set_texts (it : QTreeWidgetItem) (r : list nat) (a b : str) : QTreeWidgetItem :=
  match r with
  | [] => Item a b (items it)
  | i :: r' =>
      Item (text0 it) (text1 it)
           (update_nth (fun c => set_texts c r' a b) i (items it))
  end.

Definition set_texts_in (tree : list QTreeWidgetItem) (r : list nat) (a b : str)
  : list QTreeWidgetItem :=
  match r with
  | [] => tree
  | i :: r' => update_nth (fun it => set_texts it r' a b) i tree
  end.

Record Editor : Type := {
  text : str;
  undo_stack : list str;
  redo_stack : list str;
  current_root : option OTUINode;
  tree : list QTreeWidgetItem;
  current_item : option (list nat)
}.

Section EditorMethods.

(** What [toPlainText] returns after [setPlainText(txt)]. *)
Variable shown : str -> str.

(** [self.text.setPlainText(txt)] *)
Definition setPlainText (e : Editor) (txt : str) : Editor :=
  {| text := shown txt; undo_stack := undo_stack e; redo_stack := redo_stack e;
     current_root := current_root e; tree := tree e;
     current_item := current_item e |}.

(** [if not self.undo_stack or self.undo_stack[-1] != txt:
    self.undo_stack.append(txt); self.redo_stack.clear()]; the top of a
    stack is the head of the list. *)
Definition push_history (e : Editor) (txt : str) : Editor :=
  match undo_stack e with
  | top :: _ =>
      if str_eqb top txt then e
      else {| text := text e; undo_stack := txt :: undo_stack e; redo_stack := [];
              current_root := current_root e; tree := tree e;
              current_item := current_item e |}
  | [] =>
      {| text := text e; undo_stack := [txt]; redo_stack := [];
         current_root := current_root e; tree := tree e;
         current_item := current_item e |}
  end.

(** [_reparse_from_text(push_history)]; the parser of the editor has
    indent size 2.  Clearing the widget leaves no current item. *)
Definition reparse_from_text (e : Editor) (push : bool) : Editor :=
  let txt := text e in
  match parse_text 2 txt with
  | Raise _ => e
  | Ok root =>
      let e :=
        {| text := text e; undo_stack := undo_stack e; redo_stack := redo_stack e;
           current_root := Some root; tree := populate_tree root;
           current_item := None |} in
      if push then push_history e txt else e
  end.

(** [apply_change()] with the contents of the two edit fields. *)
Definition apply_change (e : Editor) (edit_tag edit_value : str) : Editor :=
  match current_item e with
  | None => e
  | Some it =>
      let cur_txt := text e in
      let e := push_history e cur_txt in
      let edited := set_texts_in (tree e) it edit_tag edit_value in
      let new_root := root_from_tree_widget edited in
      let new_txt := to_string 2 new_root in
      {| text := shown new_txt; undo_stack := undo_stack e;
         redo_stack := redo_stack e; current_root := Some new_root;
         tree := edited; current_item := current_item e |}
  end.

(** [undo()] *)
Definition undo (e : Editor) : Editor :=
  match undo_stack e with
  | [] => e
  | txt :: rest =>
      let cur := text e in
      let e :=
        {| text := text e; undo_stack := rest; redo_stack := cur :: redo_stack e;
           current_root := current_root e; tree := tree e;
           current_item := current_item e |} in
      reparse_from_text (setPlainText e txt) false
  end.

(** [redo()] *)
Definition redo (e : Editor) : Editor :=
  match redo_stack e with
  | [] => e
  | txt :: rest =>
      let cur := text e in
      let e :=
        {| text := text e; undo_stack := cur :: undo_stack e; redo_stack := rest;
           current_root := current_root e; tree := tree e;
           current_item := current_item e |} in
      reparse_from_text (setPlainText e txt) false
  end.

End EditorMethods.

(** The item that shows a node: its tag and value in the two columns. *)
Fixpoint item_of (n : OTUINode) : QTreeWidgetItem :=
  match n with
  | Node t v _ cs => Item t v (map item_of cs)
  end.



(** The snapshots of the history in the order they were taken, the text
    shown among them. *)
Definition timeline (e : Editor) : list str :=
  rev (undo_stack e) ++ text e :: redo_stack e.

(** Example states: a text with its tree shown and the item of [b: 1]
    current; a history of four snapshots. *)
Definition tree_ab : OTUINode :=
  Node (py "Root") [] (-1)
       [Node (py "a") [] 0 [Node (py "b") (py "1") 1 []];
        Node (py "c") [] 0 []].

Definition editor_ab : Editor :=
  {| text := text_of ["a"; "  b: 1"; "c"]%string;
     undo_stack := []; redo_stack := []; current_root := Some tree_ab;
     tree := populate_tree tree_ab;
     current_item := Some [0; 0; 0]%nat |}.

Definition editor_abcd : Editor :=
  {| text := py "c"; undo_stack := [py "b"; py "a"]; redo_stack := [py "d"];
     current_root := None; tree := []; current_item := None |}.
(** * Properties *)

(** ** Examples *)

Example ex_splitlines :
  splitlines (py "a" ++ [CR; LF] ++ py "b" ++ [LF; LF] ++ py "c")
  = [py "a"; py "b"; []; py "c"].
Proof. reflexivity. Qed.

Example ex_parse_comment :
  parse_text 2 (text_of ["panel"; "  // note"; "    child: x"]%string) =
  Ok (Node (py "Root") [] (-1)
        [Node (py "panel") [] 0
           [Node (py "//") (py "note") 1
              [Node (py "child") (py "x") 2 []]]]).
Proof. vm_compute. reflexivity. Qed.

Example ex_to_string :
  to_string 2 (Node (py "Root") [] (-1)
                 [Node (py "a") [] 7 [Node (py "b") (py "1") 0 []];
                  Node (py "//") (py "c") 3 []])
  = text_of ["a"; "  b: 1"; "// c"]%string.
Proof. reflexivity. Qed.

(** ** Strings *)

Lemma str_eqb_eq (a b : str) : str_eqb a b = true <-> a = b.
Proof.
  revert b; induction a as [|x a IH]; intros [|y b]; simpl; split;
    try congruence; try discriminate.
  - intros H. apply andb_true_iff in H as [H1 H2].
    apply N.eqb_eq in H1. apply IH in H2. congruence.
  - intros H. injection H as -> ->. apply andb_true_iff. split.
    + apply N.eqb_refl.
    + now apply IH.
Qed.

Lemma str_eqb_refl (a : str) : str_eqb a a = true.
Proof. now apply str_eqb_eq. Qed.

Lemma str_eqb_neq (a b : str) : str_eqb a b = false <-> a <> b.
Proof.
  split.
  - intros H E. apply str_eqb_eq in E. congruence.
  - intros H. destruct (str_eqb a b) eqn:E; [|reflexivity].
    apply str_eqb_eq in E. contradiction.
Qed.

(** ** References into the tree *)

Lemma get_app (n : OTUINode) (p q : ref) :
  get n (p ++ q) = match get n p with Some m => get m q | None => None end.
Proof.
  revert n; induction p as [|i p IH]; intros n; simpl; [reflexivity|].
  destruct (nth_error (children n) i); [apply IH|reflexivity].
Qed.

Lemma append_at_modify (n : OTUINode) (r : ref) (c : OTUINode) :
  append_at n r c = modify (fun x => add_child x c) n r.
Proof.
  revert n; induction r as [|i r IH]; intros n; simpl; [reflexivity|].
  f_equal. generalize (children n) as l. clear n.
  intros l; revert i; induction l as [|x l IHl]; intros [|i]; simpl;
    try reflexivity.
  - now rewrite IH.
  - now rewrite IHl.
Qed.

Lemma update_nth_ext {A} (f g : A -> A) (i : nat) (l : list A) :
  (forall x, f x = g x) -> update_nth f i l = update_nth g i l.
Proof.
  intros E; revert i; induction l as [|x l IH]; intros [|i]; simpl;
    try reflexivity.
  - now rewrite E.
  - now rewrite IH.
Qed.

Lemma update_nth_last {A} (f : A -> A) (l : list A) (x : A) :
  update_nth f (length l) (l ++ [x]) = l ++ [f x].
Proof. induction l as [|y l IH]; simpl; [reflexivity|now rewrite IH]. Qed.

Lemma modify_app (f : OTUINode -> OTUINode) (n : OTUINode) (p q : ref) :
  modify f n (p ++ q) = modify (fun m => modify f m q) n p.
Proof.
  revert n; induction p as [|i p IH]; intros n; simpl; [reflexivity|].
  f_equal. apply update_nth_ext. intros x. apply IH.
Qed.

Lemma get_zip (below : list OTUINode) (top : OTUINode) :
  get (zip top below) (ref_of below) = Some top.
Proof.
  revert top; induction below as [|g rest IH]; intros top; simpl;
    [reflexivity|].
  rewrite get_app, IH. simpl.
  rewrite nth_error_app2 by lia. now rewrite Nat.sub_diag.
Qed.

Lemma modify_zip (f : OTUINode -> OTUINode) (below : list OTUINode) (top : OTUINode) :
  modify f (zip top below) (ref_of below) = zip (f top) below.
Proof.
  revert f top; induction below as [|g rest IH]; intros f top; simpl;
    [reflexivity|].
  rewrite modify_app, IH. simpl. rewrite update_nth_last. reflexivity.
Qed.

Lemma zip_flush (d : Z) (below : list OTUINode) (top t : OTUINode) (b : list OTUINode) :
  flush d top below = Some (t, b) -> zip t b = zip top below.
Proof.
  revert top; induction below as [|g rest IH]; intros top; simpl.
  - destruct (d <=? depth top); [discriminate|]. now intros [= <- <-].
  - destruct (d <=? depth top).
    + intros H. now apply IH in H.
    + now intros [= <- <-].
Qed.

Lemma pop_while_frames (d : Z) (below : list OTUINode) (top : OTUINode) :
  pop_while (zip top below) d (refs_of below) =
  Ok (match flush d top below with
      | Some (_, b) => refs_of b
      | None => []
      end).
Proof.
  revert top; induction below as [|g rest IH]; intros top.
  - simpl. destruct (d <=? depth top); reflexivity.
  - cbn [refs_of pop_while]. rewrite get_zip.
    cbn [flush]. destruct (d <=? depth top); [|reflexivity].
    cbn [zip]. apply IH.
Qed.

Lemma attach_frames (below : list OTUINode) (top node : OTUINode) :
  attach (zip top below) (refs_of below) node =
  Ok (zip node (top :: below), refs_of (top :: below)).
Proof.
  destruct below as [|g rest]; cbn [refs_of attach]; rewrite get_zip;
    rewrite append_at_modify, modify_zip; reflexivity.
Qed.

(** A line is analysed by [line_node]; its node, comment or not, is
    attached under the first open node that is less deep and becomes the
    top of the stack. *)
Lemma parse_line_node (indent_size : Z) (root : OTUINode) (stack : list ref) (raw : str) :
  parse_line indent_size (root, stack) raw =
  (o <- line_node indent_size raw ;;
   match o with
   | None => Ok (root, stack)
   | Some node =>
       stack' <- pop_while root (depth node) stack ;;
       attach root stack' node
   end).
Proof.
  unfold parse_line, line_node.
  destruct (str_eqb (lstrip (rstrip_chars [LF] raw)) []); [reflexivity|].
  destruct (startswith (py "//") _);
    destruct (depth_of indent_size _ _) as [d|e]; try reflexivity; cbn [bind].
  destruct (split_colon _) as [[tg vl]|]; reflexivity.
Qed.

Section FramesRefine.

Variable indent_size : Z.

Lemma parse_line_frames (top : OTUINode) (below : list OTUINode) (raw : str) :
  parse_line indent_size (zip top below, refs_of below) raw =
  (o <- line_node indent_size raw ;;
   match o with
   | None => Ok (zip top below, refs_of below)
   | Some node =>
       st <- fstep (top, below) node ;;
       Ok (zip (fst st) (snd st), refs_of (snd st))
   end).
Proof.
  rewrite parse_line_node. unfold fstep.
  destruct (line_node indent_size raw) as [[node|]|e]; try reflexivity.
  cbn [bind fst snd]. rewrite pop_while_frames. cbn [bind].
  destruct (flush (depth node) top below) as [[t b]|] eqn:F; [|reflexivity].
  rewrite <- (zip_flush _ _ _ _ _ F), attach_frames. reflexivity.
Qed.

(** [parse_text] keeps its stack on the right-most branch of the tree:
    it runs as [frun] does on the frames, and no reference of the stack
    is ever dangling. *)
Lemma parse_lines_frames (lines : list str) (top : OTUINode) (below : list OTUINode) :
  parse_lines indent_size (zip top below, refs_of below) lines =
  (st <- frun indent_size (top, below) lines ;;
   Ok (zip (fst st) (snd st), refs_of (snd st))).
Proof.
  revert top below; induction lines as [|raw rest IH]; intros top below.
  - reflexivity.
  - cbn [parse_lines frun]. rewrite parse_line_frames.
    destruct (line_node indent_size raw) as [[node|]|e]; cbn [bind].
    + destruct (fstep (top, below) node) as [[t b]|e]; cbn [bind fst snd].
      * apply IH.
      * reflexivity.
    + apply IH.
    + reflexivity.
Qed.

Lemma parse_text_frames (text : str) :
  parse_text indent_size text =
  (st <- frun indent_size (root0, []) (splitlines text) ;;
   Ok (zip (fst st) (snd st))).
Proof.
  unfold parse_text.
  change (Node (py "Root") [] (-1) [], [[]]) with (zip root0 [], refs_of []).
  rewrite parse_lines_frames.
  destruct (frun indent_size (root0, []) (splitlines text)); reflexivity.
Qed.

End FramesRefine.

(** ** Totality of [parse_text] *)

Lemma drop_while_length (f : char -> bool) (s : str) :
  (length (drop_while f s) <= length s)%nat.
Proof.
  induction s as [|c s IH]; simpl; [lia|].
  destruct (f c); simpl; lia.
Qed.

Lemma size_unfold (n : OTUINode) :
  size n = S (fold_right (fun c k => (size c + k)%nat) O (children n)).
Proof. destruct n; reflexivity. Qed.

Lemma size_add_child (g c : OTUINode) :
  size (add_child g c) = (size g + size c)%nat.
Proof.
  rewrite (size_unfold (add_child g c)), (size_unfold g). simpl.
  induction (children g) as [|x l IH]; simpl; lia.
Qed.

Lemma bottom_add_child (g top : OTUINode) (rest : list OTUINode) :
  tag (bottom (add_child g top) rest) = tag (bottom g rest) /\
  depth (bottom (add_child g top) rest) = depth (bottom g rest).
Proof. destruct rest; simpl; auto. Qed.

Lemma zip_bottom (below : list OTUINode) (top : OTUINode) :
  tag (zip top below) = tag (bottom top below) /\
  depth (zip top below) = depth (bottom top below).
Proof.
  revert top; induction below as [|g rest IH]; intros top; simpl; [auto|].
  destruct (IH (add_child g top)) as [-> ->]. apply bottom_add_child.
Qed.

Lemma zip_size (below : list OTUINode) (top : OTUINode) :
  size (zip top below) = weight top below.
Proof.
  unfold weight.
  revert top; induction below as [|g rest IH]; intros top; simpl; [lia|].
  rewrite IH, size_add_child. lia.
Qed.

(** A non-negative depth never pops the root. *)
Lemma flush_root_stays (d : Z) (below : list OTUINode) (top : OTUINode) :
  0 <= d -> depth (bottom top below) < 0 ->
  exists t b, flush d top below = Some (t, b)
    /\ tag (bottom t b) = tag (bottom top below)
    /\ depth (bottom t b) = depth (bottom top below)
    /\ weight t b = weight top below.
Proof.
  intros Hd. revert top; induction below as [|g rest IH]; intros top Hb;
    cbn [flush].
  - simpl in Hb. destruct (Z.leb_spec d (depth top)); [lia|].
    exists top, []. auto.
  - destruct (d <=? depth top).
    + destruct (bottom_add_child g top rest) as [Et Ed].
      destruct (IH (add_child g top)) as (t & b & F & Ht & Hd' & Hw).
      { rewrite Ed. exact Hb. }
      exists t, b. cbn [bottom]. rewrite F, Ht, Hd', Hw, Et, Ed.
      repeat split. unfold weight. rewrite size_add_child. simpl. lia.
    + exists top, (g :: rest). auto.
Qed.

Section Totality.

Variable indent_size : Z.
Hypothesis indent_pos : 0 < indent_size.

Lemma line_node_cases (raw : str) :
  (nonblank raw = false /\ line_node indent_size raw = Ok None) \/
  (nonblank raw = true /\
   exists node, line_node indent_size raw = Ok (Some node)
     /\ 0 <= depth node /\ children node = []
     /\ depth node
        = (len (rstrip_chars [LF] raw) - len (lstrip (rstrip_chars [LF] raw)))
          / indent_size).
Proof.
  unfold nonblank, line_node, depth_of.
  destruct (str_eqb (lstrip (rstrip_chars [LF] raw)) []); [left; auto|right].
  split; [reflexivity|].
  destruct (Z.eqb_spec indent_size 0) as [E|_]; [lia|]. cbn [bind].
  assert (P : 0 <= (len (rstrip_chars [LF] raw)
                    - len (lstrip (rstrip_chars [LF] raw))) / indent_size).
  { apply Z.div_pos; [|exact indent_pos]. unfold len, lstrip.
    pose proof (drop_while_length is_space (rstrip_chars [LF] raw)). lia. }
  destruct (startswith (py "//") _); [|destruct (split_colon _) as [[tg vl]|]];
    eexists; (split; [reflexivity|]); simpl; auto.
Qed.

Lemma frun_total (lines : list str) (top : OTUINode) (below : list OTUINode) :
  depth (bottom top below) < 0 ->
  exists t b, frun indent_size (top, below) lines = Ok (t, b)
    /\ tag (bottom t b) = tag (bottom top below)
    /\ depth (bottom t b) = depth (bottom top below)
    /\ weight t b = (weight top below + length (filter nonblank lines))%nat.
Proof.
  revert top below; induction lines as [|raw rest IH]; intros top below Hb.
  - exists top, below. simpl. repeat split; lia.
  - cbn [frun filter].
    destruct (line_node_cases raw) as [[-> ->]|(-> & node & -> & Hd & Hc & _)];
      cbn [bind].
    + apply IH, Hb.
    + unfold fstep. cbn [fst snd].
      destruct (flush_root_stays (depth node) below top Hd Hb)
        as (t & b & -> & Ht & Hd' & Hw).
      cbn [bind].
      destruct (IH node (t :: b)) as (t' & b' & F & Ht' & Hd'' & Hw').
      { cbn [bottom]. rewrite Hd'. exact Hb. }
      exists t', b'. rewrite F, Ht', Hd'', Hw'. cbn [bottom].
      repeat split; auto.
      unfold weight in *. rewrite (size_unfold node), Hc. simpl. lia.
Qed.

End Totality.

(** C6. With a positive indent size [parse_text] returns for every text,
    also one with irregular indentation; it raises nothing.  The result is
    a root with tag "Root" and depth -1 that holds one node per non-blank
    line, and after every line the stack of open nodes is non-empty. *)
Theorem parse_text_total (indent_size : Z) (text : str) :
  0 < indent_size ->
  exists root,
    parse_text indent_size text = Ok root
    /\ tag root = py "Root" /\ depth root = -1
    /\ size root = S (length (filter nonblank (splitlines text)))
    /\ forall k, exists st,
         parse_lines indent_size (root0, [[]]) (firstn k (splitlines text)) = Ok st
         /\ snd st <> [].
Proof.
  intros Hpos.
  destruct (frun_total indent_size Hpos (splitlines text) root0 [])
    as (t & b & F & Ht & Hd & Hw); [simpl; lia|].
  exists (zip t b). rewrite parse_text_frames, F. cbn [bind fst snd].
  destruct (zip_bottom b t) as [-> ->]. rewrite Ht, Hd, zip_size, Hw.
  repeat split.
  intros k.
  destruct (frun_total indent_size Hpos (firstn k (splitlines text)) root0 [])
    as (t' & b' & F' & _); [simpl; lia|].
  change (root0, [[]]) with (zip root0 [], refs_of []).
  rewrite parse_lines_frames, F'. cbn [bind fst snd].
  eexists; split; [reflexivity|]. destruct b'; discriminate.
Qed.

Lemma parse_text_total_witness :
  exists root,
    parse_text 2 (text_of ["a"; "     b: 1"; " c"; ""; "// d"]%string) = Ok root
    /\ tag root = py "Root" /\ depth root = -1
    /\ size root = 5%nat.
Proof.
  destruct (parse_text_total 2 (text_of ["a"; "     b: 1"; " c"; ""; "// d"]%string))
    as (root & H1 & H2 & H3 & H4 & _); [lia|].
  exists root. repeat split; assumption.
Defined.

(** ** Depths grow from parent to child *)

Lemma all_nodes_unfold (P : OTUINode -> bool) (n : OTUINode) :
  all_nodes P n = P n && forallb (all_nodes P) (children n).
Proof. destruct n; reflexivity. Qed.

Lemma increasing_add_child (g top : OTUINode) :
  depth_increasing g = true -> depth_increasing top = true ->
  depth g < depth top ->
  depth_increasing (add_child g top) = true.
Proof.
  unfold depth_increasing. rewrite !(all_nodes_unfold _ g),
    (all_nodes_unfold _ (add_child g top)).
  unfold deeper_children. cbn [add_child children depth].
  intros Hg Ht Hlt. apply andb_true_iff in Hg as [Hg1 Hg2].
  rewrite !forallb_app, Hg1, Hg2. cbn [forallb]. rewrite Ht.
  apply Z.ltb_lt in Hlt. now rewrite Hlt.
Qed.

Lemma chain_add_child (g top : OTUINode) (rest : list OTUINode) :
  chain g rest -> chain (add_child g top) rest.
Proof. destruct rest; simpl; auto. Qed.

Lemma zip_increasing (below : list OTUINode) (top : OTUINode) :
  depth_increasing top = true ->
  Forall (fun g => depth_increasing g = true) below ->
  chain top below ->
  depth_increasing (zip top below) = true.
Proof.
  revert top; induction below as [|g rest IH]; intros top Ht Hb Hc; simpl;
    [exact Ht|].
  inversion Hb as [|? ? Hg Hrest]; subst. destruct Hc as [Hlt Hc].
  apply IH; auto using increasing_add_child, chain_add_child.
Qed.

(** [flush] stops under depth [d] and keeps the frames ordered. *)
Lemma flush_increasing (d : Z) (below : list OTUINode) (top t : OTUINode) (b : list OTUINode) :
  depth_increasing top = true ->
  Forall (fun g => depth_increasing g = true) below ->
  chain top below ->
  flush d top below = Some (t, b) ->
  depth t < d /\ depth_increasing t = true
  /\ Forall (fun g => depth_increasing g = true) b /\ chain t b.
Proof.
  revert top; induction below as [|g rest IH]; intros top Ht Hb Hc; cbn [flush].
  - destruct (Z.leb_spec d (depth top)); [discriminate|].
    intros [= <- <-]. auto.
  - destruct (Z.leb_spec d (depth top)).
    + inversion Hb as [|? ? Hg Hrest]; subst. destruct Hc as [Hlt Hc].
      apply IH; auto using increasing_add_child, chain_add_child.
    + intros [= <- <-]. auto.
Qed.

Lemma line_node_leaf (indent_size : Z) (raw : str) (node : OTUINode) :
  line_node indent_size raw = Ok (Some node) -> children node = [].
Proof.
  unfold line_node.
  destruct (str_eqb _ _); [discriminate|].
  destruct (depth_of _ _ _); [|discriminate]. cbn [bind].
  destruct (startswith _ _); [|destruct (split_colon _) as [[tg vl]|]];
    intros [= <-]; reflexivity.
Qed.

Lemma frun_increasing (indent_size : Z) (lines : list str)
    (top t : OTUINode) (below b : list OTUINode) :
  depth_increasing top = true ->
  Forall (fun g => depth_increasing g = true) below ->
  chain top below ->
  frun indent_size (top, below) lines = Ok (t, b) ->
  depth_increasing t = true
  /\ Forall (fun g => depth_increasing g = true) b /\ chain t b.
Proof.
  revert top below; induction lines as [|raw rest IH];
    intros top below Ht Hb Hc; cbn [frun].
  - intros [= <- <-]. auto.
  - destruct (line_node indent_size raw) as [[node|]|e] eqn:L; cbn [bind];
      [| now apply IH | discriminate].
    unfold fstep. cbn [fst snd].
    destruct (flush (depth node) top below) as [[t1 b1]|] eqn:F;
      [|discriminate]. cbn [bind].
    destruct (flush_increasing _ _ _ _ _ Ht Hb Hc F) as (Hlt & Ht1 & Hb1 & Hc1).
    apply IH.
    + unfold depth_increasing. rewrite all_nodes_unfold.
      unfold deeper_children. now rewrite (line_node_leaf _ _ _ L).
    + now constructor.
    + simpl. auto.
Qed.

(** C10. In the tree that [parse_text] returns every node is strictly
    deeper than its parent, the root standing at depth -1. *)
Theorem parse_text_depth_increasing (indent_size : Z) (text : str) :
  0 < indent_size ->
  exists root,
    parse_text indent_size text = Ok root
    /\ depth root = -1
    /\ depth_increasing root = true.
Proof.
  intros Hpos.
  destruct (frun_total indent_size Hpos (splitlines text) root0 [])
    as (t & b & F & _ & Hd & _); [simpl; lia|].
  exists (zip t b). rewrite parse_text_frames, F. cbn [bind fst snd].
  split; [reflexivity|]. split.
  - destruct (zip_bottom b t) as [_ ->]. exact Hd.
  - destruct (frun_increasing indent_size (splitlines text) root0 t [] b)
      as (Ht & Hb & Hc); auto; try reflexivity; try exact I.
    now apply zip_increasing.
Qed.

Lemma parse_text_depth_increasing_witness :
  exists root,
    parse_text 2 (text_of ["a"; "      b"; "  c"; "   d"]%string) = Ok root
    /\ depth root = -1
    /\ depth_increasing root = true.
Proof. apply (parse_text_depth_increasing 2); lia. Defined.

(** ** Stripping *)

Lemma take_drop_while (f : char -> bool) (s : str) :
  take_while f s ++ drop_while f s = s.
Proof.
  induction s as [|c s IH]; simpl; [reflexivity|].
  destruct (f c); simpl; [now rewrite IH|reflexivity].
Qed.

Lemma take_while_all (f : char -> bool) (s : str) :
  forallb f (take_while f s) = true.
Proof.
  induction s as [|c s IH]; simpl; [reflexivity|].
  destruct (f c) eqn:E; simpl; [now rewrite E|reflexivity].
Qed.

Lemma take_while_app_stop (f : char -> bool) (a b : str) :
  drop_while f a <> [] -> take_while f (a ++ b) = take_while f a.
Proof.
  induction a as [|c a IH]; simpl; [congruence|].
  destruct (f c); intros H; [now rewrite IH|reflexivity].
Qed.

(** What [rstrip] removes is a run of stripped characters at the end. *)
Lemma drop_while_end_split (f : char -> bool) (s : str) :
  exists tail, s = drop_while_end f s ++ tail /\ forallb f tail = true.
Proof.
  exists (rev (take_while f (rev s))). split.
  - unfold drop_while_end. rewrite <- rev_app_distr, take_drop_while.
    now rewrite rev_involutive.
  - rewrite forallb_forall. intros x Hx. apply in_rev in Hx.
    pose proof (take_while_all f (rev s)) as A.
    rewrite forallb_forall in A. now apply A.
Qed.

Lemma leading_ws_length (s : str) : len s - len (lstrip s) = leading_ws s.
Proof.
  unfold leading_ws, len, lstrip.
  rewrite <- (take_drop_while is_space s) at 1. rewrite length_app. lia.
Qed.

Lemma leading_ws_rstrip (raw : str) :
  nonblank raw = true -> leading_ws (rstrip_chars [LF] raw) = leading_ws raw.
Proof.
  unfold nonblank, leading_ws, rstrip_chars, lstrip. intros H.
  apply negb_true_iff, str_eqb_neq in H.
  destruct (drop_while_end_split (mem_char [LF]) raw) as (tail & E & _).
  rewrite E at 2. now rewrite take_while_app_stop.
Qed.

(** ** Where a line's node goes *)

Lemma nth_error_update_nth {A} (f : A -> A) (i : nat) (l : list A) :
  nth_error (update_nth f i l) i = option_map f (nth_error l i).
Proof.
  revert i; induction l as [|x l IH]; intros [|i]; simpl; auto.
Qed.

Lemma get_append_at_new (root top c : OTUINode) (r : ref) :
  get root r = Some top ->
  get (append_at root r c) (r ++ [length (children top)]) = Some c.
Proof.
  revert root; induction r as [|i r IH]; intros root; simpl.
  - intros [= ->]. rewrite nth_error_app2 by lia. now rewrite Nat.sub_diag.
  - rewrite nth_error_update_nth.
    destruct (nth_error (children root) i) as [x|]; [|discriminate].
    simpl. apply IH.
Qed.

Lemma get_append_at_same (root top c : OTUINode) (r : ref) :
  get root r = Some top ->
  get (append_at root r c) r = Some (add_child top c).
Proof.
  revert root; induction r as [|i r IH]; intros root; simpl.
  - now intros [= ->].
  - rewrite nth_error_update_nth.
    destruct (nth_error (children root) i) as [x|]; [|discriminate].
    simpl. apply IH.
Qed.

(** The loop stops at an open node that is less deep than the line. *)
Lemma pop_while_stop (root : OTUINode) (d : Z) (stack : list ref) (r : ref) (rest : list ref) :
  pop_while root d stack = Ok (r :: rest) ->
  exists top, get root r = Some top /\ depth top < d
    /\ pop_while root d (r :: rest) = Ok (r :: rest).
Proof.
  induction stack as [|r0 stack IH]; cbn [pop_while]; [discriminate|].
  destruct (get root r0) as [top|] eqn:G; [|discriminate].
  destruct (Z.leb_spec d (depth top)) as [L|L]; [exact IH|].
  intros [= <- <-]. exists top. cbn [pop_while]. rewrite G.
  destruct (Z.leb_spec d (depth top)); [lia|auto].
Qed.

(** What the loop pops is at least as deep as the line. *)
Lemma pop_while_split (root : OTUINode) (d : Z) (stack : list ref) (r : ref) (rest : list ref) :
  pop_while root d stack = Ok (r :: rest) ->
  exists popped,
    stack = popped ++ r :: rest
    /\ forall p, In p popped -> exists n, get root p = Some n /\ d <= depth n.
Proof.
  induction stack as [|r0 stack IH]; cbn [pop_while]; [discriminate|].
  destruct (get root r0) as [top|] eqn:G; [|discriminate].
  destruct (Z.leb_spec d (depth top)) as [L|L].
  - intros P. destruct (IH P) as (popped & -> & H).
    exists (r0 :: popped). split; [reflexivity|].
    intros p [<-|Hp]; [exists top; auto|now apply H].
  - intros [= <- <-]. exists []. split; [reflexivity|]. intros p [].
Qed.

Lemma attach_shape (root : OTUINode) (stack : list ref) (node : OTUINode) (st : pstate) :
  attach root stack node = Ok st ->
  exists r rest top,
    stack = r :: rest /\ get root r = Some top
    /\ st = (append_at root r node, (r ++ [length (children top)]) :: r :: rest).
Proof.
  unfold attach. destruct stack as [|r rest]; [discriminate|].
  destruct (get root r) as [top|] eqn:G; [|discriminate].
  intros [= <-]. exists r, rest, top. auto.
Qed.

(** After a line, the stack holds the line's node on top of its parent:
    the first open node that is less deep than the line. *)
Lemma parse_line_shape (indent_size : Z) (st st1 : pstate) (raw : str) (node : OTUINode) :
  line_node indent_size raw = Ok (Some node) ->
  parse_line indent_size st raw = Ok st1 ->
  exists popped parent rest top,
    snd st = popped ++ parent :: rest
    /\ (forall p, In p popped ->
         exists n, get (fst st) p = Some n /\ depth node <= depth n)
    /\ get (fst st) parent = Some top /\ depth top < depth node
    /\ st1 = (append_at (fst st) parent node,
              (parent ++ [length (children top)]) :: parent :: rest).
Proof.
  destruct st as [root stack]. rewrite parse_line_node. intros ->. cbn [bind].
  destruct (pop_while root (depth node) stack) as [stack'|e] eqn:P;
    [|discriminate]. cbn [bind]. intros A.
  destruct (attach_shape _ _ _ _ A) as (r & rest & top & -> & G & ->).
  destruct (pop_while_stop _ _ _ _ _ P) as (top' & G' & L & _).
  destruct (pop_while_split _ _ _ _ _ P) as (popped & E & Hp).
  rewrite G in G'. injection G' as <-.
  exists popped, r, rest, top. cbn [fst snd]. auto.
Qed.

(** The next line, when it is deeper, goes under the node just attached. *)
Lemma parse_line_child (indent_size : Z) (root : OTUINode) (parent : ref)
    (rest : list ref) (top n1 n2 : OTUINode) (raw : str) :
  get root parent = Some top -> children n1 = [] ->
  line_node indent_size raw = Ok (Some n2) -> depth n1 < depth n2 ->
  let r1 := parent ++ [length (children top)] in
  parse_line indent_size (append_at root parent n1, r1 :: parent :: rest) raw
  = Ok (append_at (append_at root parent n1) r1 n2, (r1 ++ [O]) :: r1 :: parent :: rest).
Proof.
  intros G C L Hlt r1. rewrite parse_line_node, L. cbn [bind pop_while].
  unfold r1. rewrite (get_append_at_new _ _ _ _ G).
  destruct (Z.leb_spec (depth n2) (depth n1)); [lia|].
  cbn [bind attach]. rewrite (get_append_at_new _ _ _ _ G), C. reflexivity.
Qed.

(** The next line, when it is as deep, goes next to the node just attached. *)
Lemma parse_line_sibling (indent_size : Z) (root : OTUINode) (parent : ref)
    (rest : list ref) (top n1 n2 : OTUINode) (raw : str) :
  get root parent = Some top -> depth top < depth n2 ->
  line_node indent_size raw = Ok (Some n2) -> depth n2 = depth n1 ->
  let k := length (children top) in
  parse_line indent_size
    (append_at root parent n1, (parent ++ [k]) :: parent :: rest) raw
  = Ok (append_at (append_at root parent n1) parent n2,
        (parent ++ [S k]) :: parent :: rest).
Proof.
  intros G Hlt L E k. rewrite parse_line_node, L. cbn [bind pop_while].
  unfold k. rewrite (get_append_at_new _ _ _ _ G).
  destruct (Z.leb_spec (depth n2) (depth n1)); [|lia].
  rewrite (get_append_at_same _ _ _ _ G). cbn [add_child depth].
  destruct (Z.leb_spec (depth n2) (depth top)); [lia|].
  cbn [bind attach]. rewrite (get_append_at_same _ _ _ _ G).
  cbn [add_child children]. rewrite length_app. cbn [length].
  now rewrite Nat.add_1_r.
Qed.

Lemma line_node_comment (indent_size : Z) (raw : str) (node : OTUINode) :
  startswith (py "//") (lstrip (rstrip_chars [LF] raw)) = true ->
  line_node indent_size raw = Ok (Some node) ->
  tag node = py "//"
  /\ value node = strip (skipn 2 (lstrip (rstrip_chars [LF] raw))).
Proof.
  unfold line_node. intros ->.
  destruct (str_eqb _ _); [discriminate|].
  destruct (depth_of _ _ _); [|discriminate]. cbn [bind].
  intros [= <-]. auto.
Qed.

(** C3. A comment line is a node like any other: it is pushed on the stack
    of open nodes, and a following line that is deeper becomes its child.
    So "panel", "  // note", "    child: x" at indent size 2 parse to
    panel, holding the comment at depth 1, holding child: x at depth 2. *)
Theorem comment_nesting :
  (forall (indent_size : Z) (st st1 : pstate) (rawc raw : str) (nc n : OTUINode),
     startswith (py "//") (lstrip (rstrip_chars [LF] rawc)) = true ->
     line_node indent_size rawc = Ok (Some nc) ->
     line_node indent_size raw = Ok (Some n) ->
     depth nc < depth n ->
     parse_line indent_size st rawc = Ok st1 ->
     exists r rest,
       snd st1 = r :: rest
       /\ tag nc = py "//" /\ get (fst st1) r = Some nc
       /\ parse_line indent_size st1 raw
          = Ok (append_at (fst st1) r n, (r ++ [O]) :: r :: rest)
       /\ get (append_at (fst st1) r n) r = Some (add_child nc n))
  /\ parse_text 2 (text_of ["panel"; "  // note"; "    child: x"]%string)
     = Ok (Node (py "Root") [] (-1)
             [Node (py "panel") [] 0
                [Node (py "//") (py "note") 1
                   [Node (py "child") (py "x") 2 []]]]).
Proof.
  split; [|vm_compute; reflexivity].
  intros indent_size st st1 rawc raw nc n Hc Lc L Hlt P.
  destruct (parse_line_shape _ _ _ _ _ Lc P)
    as (popped & parent & rest & top & _ & _ & G & _ & ->).
  cbn [fst snd].
  pose proof (get_append_at_new _ _ nc _ G) as G1.
  exists (parent ++ [length (children top)]), (parent :: rest).
  split; [reflexivity|]. split; [apply (line_node_comment _ _ _ Hc Lc)|].
  split; [exact G1|]. split.
  - apply parse_line_child; auto.
    apply (line_node_leaf _ _ _ Lc).
  - apply get_append_at_same, G1.
Qed.

Lemma comment_nesting_witness :
  exists r rest,
    r :: rest = [[O]; []]
    /\ parse_line 2 (Node (py "Root") [] (-1) [Node (py "//") (py "note") 0 []],
                     [[O]; []]) (py "  child: x")
       = Ok (append_at (Node (py "Root") [] (-1) [Node (py "//") (py "note") 0 []])
               r (Node (py "child") (py "x") 1 []),
             (r ++ [O]) :: r :: rest).
Proof.
  destruct comment_nesting as [H _].
  destruct (H 2 (root0, [[]])
              (Node (py "Root") [] (-1) [Node (py "//") (py "note") 0 []], [[O]; []])
              (py "// note") (py "  child: x")
              (Node (py "//") (py "note") 0 [])
              (Node (py "child") (py "x") 1 []))
    as (r & rest & E & _ & _ & P & _); try reflexivity.
  exists r, rest. cbn [fst snd] in *. split; [now symmetry|exact P].
Defined.

(** C4. The depth of a non-blank line is the number of whitespace
    characters it starts with, divided by the indent size and rounded
    down.  Before the line is attached the open nodes that are at least
    as deep are popped, down to the first one that is less deep, which
    becomes the parent; so a line as deep as the line before it becomes
    the next child of the same parent.  At indent size 2, in "a",
    "  b: 1", "   c: 2", c has depth 3 // 2 = 1 and is the sibling of b
    under a. *)
Theorem depth_floor_and_siblings :
  (forall (indent_size : Z) (st st1 : pstate) (raw1 raw2 : str) (n1 n2 : OTUINode),
     0 < indent_size ->
     line_node indent_size raw1 = Ok (Some n1) ->
     line_node indent_size raw2 = Ok (Some n2) ->
     depth n2 = depth n1 ->
     parse_line indent_size st raw1 = Ok st1 ->
     depth n1 = leading_ws raw1 / indent_size
     /\ exists popped parent rest top,
          snd st = popped ++ parent :: rest
          /\ (forall p, In p popped ->
               exists n, get (fst st) p = Some n /\ depth n1 <= depth n)
          /\ get (fst st) parent = Some top /\ depth top < depth n1
          /\ snd st1 = (parent ++ [length (children top)]) :: parent :: rest
          /\ get (fst st1) (parent ++ [length (children top)]) = Some n1
          /\ parse_line indent_size st1 raw2
             = Ok (append_at (fst st1) parent n2,
                   (parent ++ [S (length (children top))]) :: parent :: rest)
          /\ get (append_at (fst st1) parent n2)
                 (parent ++ [S (length (children top))]) = Some n2)
  /\ parse_text 2 (text_of ["a"; "  b: 1"; "   c: 2"]%string)
     = Ok (Node (py "Root") [] (-1)
             [Node (py "a") [] 0
                [Node (py "b") (py "1") 1 [];
                 Node (py "c") (py "2") 1 []]]).
Proof.
  split; [|vm_compute; reflexivity].
  intros indent_size st st1 raw1 raw2 n1 n2 Hpos L1 L2 E P. split.
  - destruct (line_node_cases indent_size Hpos raw1)
      as [[_ B]|(NB & node & L & _ & _ & D)]; [congruence|].
    rewrite L in L1. injection L1 as <-.
    now rewrite D, leading_ws_length, leading_ws_rstrip.
  - destruct (parse_line_shape _ _ _ _ _ L1 P)
      as (popped & parent & rest & top & Es & Hp & G & Hlt & ->).
    cbn [fst snd].
    exists popped, parent, rest, top.
    split; [exact Es|]. split; [exact Hp|]. split; [exact G|].
    split; [exact Hlt|]. split; [reflexivity|].
    split; [apply get_append_at_new, G|]. split.
    + apply parse_line_sibling; auto. lia.
    + pose proof (get_append_at_same _ _ n1 _ G) as G1.
      pose proof (get_append_at_new _ _ n2 _ G1) as G2.
      cbn [add_child children] in G2. rewrite length_app in G2.
      cbn [length] in G2. now rewrite Nat.add_1_r in G2.
Qed.

Lemma depth_floor_and_siblings_witness :
  depth (Node (py "c") (py "2") 1 []) = leading_ws (py "   c: 2") / 2
  /\ exists st1,
       parse_line 2 (Node (py "Root") [] (-1)
                       [Node (py "a") [] 0 [Node (py "b") (py "1") 1 []]],
                     [[O; O]; [O]; []]) (py "   c: 2")
       = Ok st1
       /\ exists parent k rest,
            snd st1 = (parent ++ [k]) :: parent :: rest
            /\ parse_line 2 st1 (py "  d")
               = Ok (append_at (fst st1) parent (Node (py "d") [] 1 []),
                     (parent ++ [S k]) :: parent :: rest).
Proof.
  destruct depth_floor_and_siblings as [H _].
  destruct (H 2 (Node (py "Root") [] (-1)
                   [Node (py "a") [] 0 [Node (py "b") (py "1") 1 []]],
                 [[O; O]; [O]; []])
              (Node (py "Root") [] (-1)
                 [Node (py "a") [] 0 [Node (py "b") (py "1") 1 [];
                                      Node (py "c") (py "2") 1 []]],
               [[O; 1%nat]; [O]; []])
              (py "   c: 2") (py "  d")
              (Node (py "c") (py "2") 1 [])
              (Node (py "d") [] 1 []))
    as (D & popped & parent & rest & top & _ & _ & _ & _ & E & _ & P & _);
    try reflexivity; try lia.
  split; [exact D|].
  eexists. split; [reflexivity|].
  exists parent, (length (children top)), rest. split; [exact E|exact P].
Defined.

(** ** [to_string] walks the tree in pre-order *)

Section Serialize.

Variable indent_size : Z.

Lemma fold_write (cs : list OTUINode) :
  Forall (fun c => all_nodes plain_node c = true ->
            forall d out, write indent_size c d out
                          = out ++ map (render_line indent_size) (preorder d c)) cs ->
  forallb (all_nodes plain_node) cs = true ->
  forall d out,
    fold_left (fun out ch => write indent_size ch d out) cs out
    = out ++ map (render_line indent_size) (flat_map (preorder d) cs).
Proof.
  induction 1 as [|c cs Hc _ IH]; intros Hall d out; simpl.
  - now rewrite app_nil_r.
  - simpl in Hall. apply andb_true_iff in Hall as [H1 H2].
    rewrite Hc, IH by assumption. now rewrite map_app, app_assoc.
Qed.

Lemma write_preorder (n : OTUINode) :
  all_nodes plain_node n = true ->
  forall d out, write indent_size n d out
                = out ++ map (render_line indent_size) (preorder d n).
Proof.
  induction n as [t v dp cs IH] using OTUINode_ind. intros Hall d out.
  rewrite all_nodes_unfold in Hall. apply andb_true_iff in Hall as [Hp Hcs].
  unfold plain_node, not_root_tag, comment_leaf in Hp.
  cbn [tag children] in Hp, Hcs.
  apply andb_true_iff in Hp as [Hr Hc]. apply negb_true_iff in Hr.
  cbn [write preorder map render_line tag value]. rewrite Hr.
  unfold str_mul. rewrite (Z.mul_comm d indent_size).
  destruct (str_eqb t (py "//")).
  - destruct cs; [reflexivity|discriminate].
  - rewrite (fold_write cs IH Hcs). destruct v; simpl; now rewrite <- app_assoc.
Qed.

Lemma write_root (t v : str) (dp : Z) (cs : list OTUINode) :
  t = py "Root" ->
  forallb (all_nodes plain_node) cs = true ->
  write indent_size (Node t v dp cs) 0 []
  = map (render_line indent_size) (flat_map (preorder 0) cs).
Proof.
  intros -> Hcs. cbn [write]. rewrite str_eqb_refl.
  apply (fold_write cs); [|exact Hcs].
  apply Forall_forall. intros c _. apply write_preorder.
Qed.

End Serialize.

(** C2, amended.  For a tree whose root is tagged "Root", in which no
    other node carries that tag and no comment node has children,
    [to_string] is the pre-order walk over everything below the root at
    recomputed depths, as the specification describes it: the stored depth
    is not read, a comment is rendered as indent, "// ", value, a data
    node as indent, tag, ": ", value or indent, tag; lines are joined by
    a newline and one newline ends the text.  A tree without nodes gives
    the empty string, so does the tree parsed from the empty text. *)
Theorem to_string_preorder (indent_size : Z) :
  (forall root : OTUINode,
     tag root = py "Root" ->
     forallb (all_nodes plain_node) (children root) = true ->
     to_string indent_size root = serialize_spec indent_size root)
  /\ to_string indent_size root0 = []
  /\ (r <- parse_text indent_size [] ;; Ok (to_string indent_size r)) = Ok [].
Proof.
  split; [|split; reflexivity].
  intros [t v dp cs] Ht Hcs. cbn [tag children] in *.
  unfold to_string, serialize_spec. cbn [children].
  rewrite (write_root indent_size t v dp cs Ht Hcs).
  destruct (map _ _); reflexivity.
Qed.

Lemma to_string_preorder_witness :
  to_string 2 (Node (py "Root") [] (-1)
                 [Node (py "a") [] 7 [Node (py "b") (py "1") 0 []];
                  Node (py "//") (py "c") 3 []])
  = serialize_spec 2 (Node (py "Root") [] (-1)
                 [Node (py "a") [] 7 [Node (py "b") (py "1") 0 []];
                  Node (py "//") (py "c") 3 []]).
Proof.
  destruct (to_string_preorder 2) as [H _]. apply H; reflexivity.
Defined.

(** C2 as stated fails: a line tagged "Root" is taken for the root.  It
    is not written and its children are written at depth 0. *)
Lemma to_string_counterexample :
  parse_text 2 (text_of ["Root"; "  a"]%string)
  = Ok (Node (py "Root") [] (-1) [Node (py "Root") [] 0 [Node (py "a") [] 1 []]])
  /\ to_string 2 (Node (py "Root") [] (-1) [Node (py "Root") [] 0 [Node (py "a") [] 1 []]])
     = text_of ["a"]%string
  /\ serialize_spec 2 (Node (py "Root") [] (-1) [Node (py "Root") [] 0 [Node (py "a") [] 1 []]])
     = text_of ["Root"; "  a"]%string
  /\ to_string 2 (Node (py "Root") [] (-1) [Node (py "Root") [] 0 [Node (py "a") [] 1 []]])
     <> serialize_spec 2 (Node (py "Root") [] (-1) [Node (py "Root") [] 0 [Node (py "a") [] 1 []]]).
Proof. repeat split; try reflexivity. discriminate. Qed.

(** The children of a comment node are not written either. *)
Example to_string_comment_children :
  to_string 2 (Node (py "Root") [] (-1)
                 [Node (py "//") (py "note") 0 [Node (py "child") (py "x") 1 []]])
  = text_of ["// note"]%string
  /\ serialize_spec 2 (Node (py "Root") [] (-1)
                 [Node (py "//") (py "note") 0 [Node (py "child") (py "x") 1 []]])
  = text_of ["// note"; "  child: x"]%string.
Proof. split; reflexivity. Qed.

(** ** More on stripping *)

Lemma drop_while_head (f : char -> bool) (c : char) (s : str) :
  drop_while f (c :: s) = c :: s -> f c = false.
Proof.
  simpl. destruct (f c); [|reflexivity].
  intros E. pose proof (drop_while_length f s) as L. rewrite E in L.
  simpl in L. lia.
Qed.

Lemma drop_while_fixed_app (f : char -> bool) (s r : str) :
  s <> [] -> drop_while f s = s -> drop_while f (s ++ r) = s ++ r.
Proof.
  destruct s as [|c s]; [congruence|]. intros _ E.
  apply drop_while_head in E. simpl. now rewrite E.
Qed.

Lemma drop_while_idem (f : char -> bool) (s : str) :
  drop_while f (drop_while f s) = drop_while f s.
Proof.
  induction s as [|c s IH]; simpl; [reflexivity|].
  destruct (f c) eqn:E; [exact IH|]. simpl. now rewrite E.
Qed.

Lemma drop_while_snoc (f : char -> bool) (l : str) (c : char) :
  f c = false -> drop_while f (l ++ [c]) = drop_while f l ++ [c].
Proof.
  intros E. induction l as [|x l IH]; simpl; [now rewrite E|].
  destruct (f x); [exact IH|reflexivity].
Qed.

Lemma drop_while_end_cons (f : char -> bool) (c : char) (s : str) :
  f c = false -> drop_while_end f (c :: s) = c :: drop_while_end f s.
Proof.
  intros E. unfold drop_while_end. simpl.
  rewrite drop_while_snoc by exact E. rewrite rev_app_distr. reflexivity.
Qed.

Lemma drop_while_end_idem (f : char -> bool) (s : str) :
  drop_while_end f (drop_while_end f s) = drop_while_end f s.
Proof.
  unfold drop_while_end. now rewrite rev_involutive, drop_while_idem.
Qed.

Lemma drop_while_end_keeps_start (f : char -> bool) (s : str) :
  drop_while f s = s -> drop_while f (drop_while_end f s) = drop_while_end f s.
Proof.
  destruct s as [|c s]; [reflexivity|]. intros E.
  apply drop_while_head in E. rewrite drop_while_end_cons by exact E.
  simpl. now rewrite E.
Qed.

Lemma drop_while_end_none (f : char -> bool) (s : str) :
  (forall c, In c s -> f c = false) -> drop_while_end f s = s.
Proof.
  intros H. unfold drop_while_end.
  destruct (rev s) as [|x l] eqn:E.
  - simpl. now rewrite <- (rev_involutive s), E.
  - simpl. rewrite (H x).
    + now rewrite <- E, rev_involutive.
    + apply in_rev. rewrite E. now left.
Qed.

Lemma drop_while_repeat (f : char -> bool) (c : char) (n : nat) (s : str) :
  f c = true -> drop_while f (repeat c n ++ s) = drop_while f s.
Proof. intros E. induction n as [|n IH]; simpl; [reflexivity|now rewrite E]. Qed.

Lemma trimmed_spec (s : str) :
  trimmed s = true <-> lstrip s = s /\ rstrip s = s.
Proof.
  unfold trimmed. rewrite andb_true_iff, !str_eqb_eq. reflexivity.
Qed.

Lemma strip_trimmed (s : str) : trimmed (strip s) = true.
Proof.
  apply trimmed_spec. unfold strip, lstrip, rstrip. split.
  - apply drop_while_end_keeps_start, drop_while_idem.
  - apply drop_while_end_idem.
Qed.

Lemma strip_fixed (s : str) : trimmed s = true -> strip s = s.
Proof.
  intros H. apply trimmed_spec in H as [L R]. unfold strip. now rewrite L, R.
Qed.

Lemma strip_space_cons (s : str) : trimmed s = true -> strip (SPACE :: s) = s.
Proof. intros H. unfold strip, lstrip. simpl. now apply strip_fixed. Qed.

(** What stripping keeps was there before. *)
Lemma drop_while_incl (f : char -> bool) (s : str) (c : char) :
  In c (drop_while f s) -> In c s.
Proof.
  induction s as [|x s IH]; simpl; [auto|].
  destruct (f x); simpl; auto.
Qed.

Lemma drop_while_end_incl (f : char -> bool) (s : str) (c : char) :
  In c (drop_while_end f s) -> In c s.
Proof.
  unfold drop_while_end. intros H. apply in_rev in H.
  apply drop_while_incl in H. now apply in_rev.
Qed.

Lemma strip_incl (s : str) (c : char) : In c (strip s) -> In c s.
Proof.
  unfold strip, rstrip, lstrip. intros H.
  now apply drop_while_end_incl, drop_while_incl in H.
Qed.

Lemma forallb_incl (P : char -> bool) (s t : str) :
  (forall c, In c t -> In c s) -> forallb P s = true -> forallb P t = true.
Proof.
  rewrite !forallb_forall. auto.
Qed.

(** ** Colons and comment markers *)

Lemma split_colon_found (a b : str) :
  no_colon a = true -> split_colon (a ++ COLON :: b) = Some (a, b).
Proof.
  induction a as [|c a IH]; simpl; [reflexivity|].
  intros H. apply andb_true_iff in H as [H1 H2].
  apply negb_true_iff in H1. rewrite H1, IH by exact H2. reflexivity.
Qed.

Lemma split_colon_none (a : str) : no_colon a = true -> split_colon a = None.
Proof.
  induction a as [|c a IH]; simpl; [reflexivity|].
  intros H. apply andb_true_iff in H as [H1 H2].
  apply negb_true_iff in H1. rewrite H1, IH by exact H2. reflexivity.
Qed.

Lemma split_colon_some (s a b : str) :
  split_colon s = Some (a, b) -> s = a ++ COLON :: b /\ no_colon a = true.
Proof.
  revert a; induction s as [|c s IH]; intros a; simpl; [discriminate|].
  destruct (char_eqb c COLON) eqn:E.
  - intros [= <- <-]. apply N.eqb_eq in E. subst c. auto.
  - destruct (split_colon s) as [[a' b']|]; [|discriminate].
    intros [= <- <-]. destruct (IH a' eq_refl) as [-> H].
    simpl. now rewrite E.
Qed.

Lemma startswith_app (p s r : str) :
  startswith p s = true -> startswith p (s ++ r) = true.
Proof.
  revert s; induction p as [|x p IH]; intros [|y s]; simpl; auto;
    [discriminate|].
  intros H. apply andb_true_iff in H as [-> H]. simpl. now apply IH.
Qed.

Lemma startswith_comment_colon (t r : str) :
  startswith (py "//") t = false ->
  startswith (py "//") (t ++ COLON :: r) = false.
Proof.
  destruct t as [|c1 [|c2 t]]; simpl; auto.
Qed.

(** ** Reading back a line that [to_string] wrote *)

Lemma no_break_no_lf (s : str) :
  no_break s = true -> forall c, In c s -> mem_char [LF] c = false.
Proof.
  unfold no_break. rewrite forallb_forall. intros H c Hc.
  specialize (H c Hc). unfold mem_char. simpl. rewrite orb_false_r.
  destruct (char_eqb c LF) eqn:E; [|reflexivity].
  apply N.eqb_eq in E. subst c. discriminate.
Qed.

Lemma no_break_app (a b : str) :
  no_break (a ++ b) = no_break a && no_break b.
Proof. apply forallb_app. Qed.

Lemma no_break_repeat_space (m : nat) : no_break (repeat SPACE m) = true.
Proof. induction m; simpl; auto. Qed.

Section ReadBack.

Variable indent_size : Z.
Hypothesis indent_pos : 0 < indent_size.

Lemma line_node_indented (m : nat) (body : str) :
  body <> [] -> lstrip body = body -> no_break body = true ->
  line_node indent_size (repeat SPACE m ++ body) =
  let d := Z.of_nat m / indent_size in
  if startswith (py "//") body then
    Ok (Some (Node (py "//") (strip (skipn 2 body)) d []))
  else
    match split_colon body with
    | Some (tag, val) => Ok (Some (Node (strip tag) (strip val) d []))
    | None => Ok (Some (Node (strip body) [] d []))
    end.
Proof.
  intros Hne Hl Hb. unfold line_node.
  assert (R : rstrip_chars [LF] (repeat SPACE m ++ body) = repeat SPACE m ++ body).
  { apply drop_while_end_none, no_break_no_lf.
    now rewrite no_break_app, no_break_repeat_space, Hb. }
  rewrite R.
  assert (L : lstrip (repeat SPACE m ++ body) = body).
  { unfold lstrip. rewrite drop_while_repeat by reflexivity. exact Hl. }
  rewrite L.
  destruct (str_eqb body []) eqn:E; [apply str_eqb_eq in E; contradiction|].
  unfold depth_of. destruct (Z.eqb_spec indent_size 0); [lia|].
  cbn [bind]. unfold len. rewrite length_app, repeat_length.
  replace (Z.of_nat (m + length body) - Z.of_nat (length body)) with (Z.of_nat m) by lia.
  cbv zeta.
  destruct (startswith (py "//") body); [reflexivity|].
  destruct (split_colon body) as [[tg vl]|]; reflexivity.
Qed.

Lemma render_depth (k : Z) :
  0 <= k -> Z.of_nat (Z.to_nat (indent_size * k)) / indent_size = k.
Proof.
  intros Hk. rewrite Z2Nat.id by nia.
  rewrite Z.mul_comm. apply Z.div_mul. lia.
Qed.

Lemma clean_node_spec (n : OTUINode) :
  clean_node n = true ->
  no_break (tag n) = true /\ no_break (value n) = true
  /\ trimmed (tag n) = true /\ trimmed (value n) = true
  /\ no_colon (tag n) = true
  /\ (str_eqb (tag n) (py "//") = false -> startswith (py "//") (tag n) = false).
Proof.
  unfold clean_node. rewrite !andb_true_iff.
  intros (((((H1 & H2) & H3) & H4) & H5) & H6).
  repeat split; auto.
  intros E. rewrite E in H6. destruct (startswith _ _); [discriminate|reflexivity].
Qed.

(** A written line is read back as the node it was written from, at the
    depth it was written at. *)
Lemma line_node_render (k : Z) (n : OTUINode) :
  0 <= k -> clean_node n = true -> has_text n = true ->
  line_node indent_size (render_line indent_size (k, n))
  = Ok (Some (Node (tag n) (value n) k [])).
Proof.
  intros Hk Hc Ht.
  destruct (clean_node_spec n Hc) as (Bt & Bv & Tt & Tv & Ct & St).
  pose proof Tt as Tt'. apply trimmed_spec in Tt' as [Lt _].
  unfold render_line.
  destruct (str_eqb (tag n) (py "//")) eqn:Ec.
  - apply str_eqb_eq in Ec.
    rewrite line_node_indented; [|discriminate|reflexivity|].
    + cbv zeta. rewrite render_depth by exact Hk.
      change (startswith (py "//") (py "// " ++ value n)) with true.
      cbv iota. change (skipn 2 (py "// " ++ value n)) with (SPACE :: value n).
      now rewrite strip_space_cons, Ec.
    + now rewrite no_break_app, Bv.
  - specialize (St eq_refl).
    destruct (str_eqb (value n) []) eqn:Ev.
    + apply str_eqb_eq in Ev.
      assert (Hne : tag n <> []).
      { intros E. unfold has_text in Ht. rewrite E, Ev in Ht. discriminate. }
      rewrite line_node_indented by assumption.
      cbv zeta. rewrite render_depth by exact Hk.
      rewrite St, split_colon_none by exact Ct.
      now rewrite strip_fixed, Ev.
    + change (py ": " ++ value n) with (COLON :: SPACE :: value n).
      rewrite line_node_indented.
      * cbv zeta. rewrite render_depth by exact Hk.
        rewrite startswith_comment_colon by exact St.
        rewrite split_colon_found by exact Ct.
        now rewrite strip_fixed, strip_space_cons.
      * destruct (tag n); discriminate.
      * destruct (tag n) as [|c t] eqn:E; [reflexivity|].
        change ((c :: t) ++ COLON :: SPACE :: value n)
          with ((c :: t) ++ (COLON :: SPACE :: value n)).
        apply drop_while_fixed_app; [discriminate|exact Lt].
      * rewrite no_break_app, Bt. simpl. exact Bv.
Qed.

Lemma render_no_break (k : Z) (n : OTUINode) :
  clean_node n = true -> no_break (render_line indent_size (k, n)) = true.
Proof.
  intros Hc. destruct (clean_node_spec n Hc) as (Bt & Bv & _).
  unfold render_line.
  destruct (str_eqb (tag n) (py "//")); [|destruct (str_eqb (value n) [])];
    rewrite ?no_break_app, ?no_break_repeat_space, ?Bt, ?Bv; simpl;
    try reflexivity; exact Bv.
Qed.

End ReadBack.

(** ** Splitting the written text into lines *)

Lemma splitlines_line (cur l rest : str) :
  no_break l = true ->
  splitlines_from false cur (l ++ LF :: rest)
  = (rev cur ++ l) :: splitlines_from false [] rest.
Proof.
  revert cur; induction l as [|c l IH]; intros cur H; simpl.
  - now rewrite app_nil_r.
  - simpl in H. apply andb_true_iff in H as [H1 H2].
    apply negb_true_iff in H1. rewrite H1, IH by exact H2.
    simpl. now rewrite <- app_assoc.
Qed.

Lemma splitlines_concat (lines : list str) :
  forallb no_break lines = true ->
  splitlines (concat (map (fun l => l ++ [LF]) lines)) = lines.
Proof.
  unfold splitlines. induction lines as [|l lines IH]; intros H; simpl;
    [reflexivity|].
  simpl in H. apply andb_true_iff in H as [H1 H2].
  rewrite <- app_assoc. simpl. rewrite splitlines_line by exact H1.
  simpl. now rewrite IH.
Qed.

Lemma join_lf (l : str) (lines : list str) :
  join [LF] (l :: lines) ++ [LF] = concat (map (fun l => l ++ [LF]) (l :: lines)).
Proof.
  revert l; induction lines as [|l' lines IH]; intros l.
  - simpl. now rewrite app_nil_r.
  - change (join [LF] (l :: l' :: lines)) with (l ++ [LF] ++ join [LF] (l' :: lines)).
    rewrite <- !app_assoc, IH. cbn [map concat].
    now rewrite <- !app_assoc.
Qed.

(** ** Parsing the lines of a forest *)

Lemma flush_flush (d k : Z) (below : list OTUINode) (top t : OTUINode) (b : list OTUINode) :
  d <= k -> flush k top below = Some (t, b) -> flush d top below = flush d t b.
Proof.
  intros Hdk. revert top; induction below as [|g rest IH]; intros top;
    cbn [flush].
  - destruct (k <=? depth top); [discriminate|]. now intros [= <- <-].
  - destruct (Z.leb_spec k (depth top)) as [L|L].
    + intros F. destruct (Z.leb_spec d (depth top)); [|lia]. now apply IH.
    + now intros [= <- <-].
Qed.

Lemma flush_stay (k : Z) (top : OTUINode) (below : list OTUINode) :
  depth top < k -> flush k top below = Some (top, below).
Proof.
  intros H. destruct below; cbn [flush];
    destruct (Z.leb_spec k (depth top)); auto; lia.
Qed.

Lemma frun_app (indent_size : Z) (l1 l2 : list str) (st : fstate) :
  frun indent_size st (l1 ++ l2)
  = (st1 <- frun indent_size st l1 ;; frun indent_size st1 l2).
Proof.
  revert st; induction l1 as [|raw l1 IH]; intros st; [reflexivity|].
  cbn [app frun].
  destruct (line_node indent_size raw) as [[node|]|e]; cbn [bind]; auto.
  destruct (fstep st node); cbn [bind]; auto.
Qed.

Lemma add_children_node (t v : str) (d : Z) (cs0 cs : list OTUINode) :
  fold_left add_child cs (Node t v d cs0) = Node t v d (cs0 ++ cs).
Proof.
  revert cs0; induction cs as [|c cs IH]; intros cs0; simpl.
  - now rewrite app_nil_r.
  - unfold add_child at 2. simpl. rewrite IH. now rewrite <- app_assoc.
Qed.

Lemma add_children_depth (cs : list OTUINode) (f : OTUINode) :
  depth (fold_left add_child cs f) = depth f.
Proof. destruct f. now rewrite add_children_node. Qed.

Section ParseForest.

Variable indent_size : Z.
Hypothesis indent_pos : 0 < indent_size.

Let readable (n : OTUINode) : bool := clean_node n && has_text n.

(** The lines of a tree written at depth [k], read with the frames
    closed down to [f]: the tree hangs under [f] when they are closed
    again. *)
Let tree_parsed (n : OTUINode) : Prop :=
  all_nodes readable n = true ->
  forall k st f below,
    0 <= k -> flush k (fst st) (snd st) = Some (f, below) -> depth f < k ->
    exists st',
      frun indent_size st (map (render_line indent_size) (preorder k n)) = Ok st'
      /\ flush k (fst st') (snd st') = Some (add_child f (redepth k n), below).

Lemma forest_parsed (F : list OTUINode) :
  Forall tree_parsed F ->
  forallb (all_nodes readable) F = true ->
  forall k st f below,
    0 <= k -> flush k (fst st) (snd st) = Some (f, below) -> depth f < k ->
    exists st',
      frun indent_size st
        (map (render_line indent_size) (flat_map (preorder k) F)) = Ok st'
      /\ flush k (fst st') (snd st')
         = Some (fold_left add_child (map (redepth k) F) f, below).
Proof.
  induction 1 as [|c F Hc _ IH]; intros Hall k st f below Hk Hf Hd.
  - exists st. simpl. auto.
  - simpl in Hall. apply andb_true_iff in Hall as [H1 H2].
    destruct (Hc H1 k st f below Hk Hf Hd) as (st1 & R1 & F1).
    destruct (IH H2 k st1 (add_child f (redepth k c)) below Hk F1 Hd)
      as (st2 & R2 & F2).
    exists st2. cbn [flat_map map fold_left].
    rewrite map_app, frun_app, R1. cbn [bind]. auto.
Qed.

Lemma tree_is_parsed (n : OTUINode) : tree_parsed n.
Proof.
  induction n as [t v dp cs IH] using OTUINode_ind.
  intros Hall k st f below Hk Hf Hd.
  rewrite all_nodes_unfold in Hall. apply andb_true_iff in Hall as [Hn Hcs].
  cbn [children] in Hcs.
  unfold readable in Hn. apply andb_true_iff in Hn as [Hclean Htext].
  cbn [preorder map frun].
  rewrite (line_node_render indent_size indent_pos k _ Hk Hclean Htext).
  cbn [bind tag value]. unfold fstep. cbn [depth]. rewrite Hf. cbn [bind].
  set (leaf := Node t v k []).
  destruct (forest_parsed cs IH Hcs (k + 1) (leaf, f :: below) leaf (f :: below))
    as (st2 & R2 & F2); try (cbn [depth leaf]; lia).
  { cbn [fst snd]. apply flush_stay. cbn [depth leaf]. lia. }
  exists st2. split; [exact R2|].
  rewrite (flush_flush k (k + 1) _ _ _ _ ltac:(lia) F2).
  unfold leaf. rewrite add_children_node. cbn [app].
  cbn [flush depth]. destruct (Z.leb_spec k k); [|lia].
  rewrite flush_stay by exact Hd. reflexivity.
Qed.

Lemma children_parsed (cs : list OTUINode) :
  forallb (all_nodes (fun n => clean_node n && has_text n)) cs = true ->
  exists st',
    frun indent_size (root0, [])
      (map (render_line indent_size) (flat_map (preorder 0) cs)) = Ok st'
    /\ zip (fst st') (snd st') = Node (py "Root") [] (-1) (map (redepth 0) cs).
Proof.
  intros Hcs.
  destruct (forest_parsed cs) with (k := 0) (st := (root0, @nil OTUINode))
    (f := root0) (below := @nil OTUINode) as (st' & R & F); auto.
  - apply Forall_forall. intros c _. apply tree_is_parsed.
  - lia.
  - simpl. lia.
  - exists st'. split; [exact R|].
    rewrite <- (zip_flush _ _ _ _ _ F). unfold root0.
    now rewrite add_children_node.
Qed.

End ParseForest.

(** ** What [parse_text] stores is clean *)

Lemma all_nodes_impl (P Q : OTUINode -> bool) (n : OTUINode) :
  (forall m, P m = true -> Q m = true) ->
  all_nodes P n = true -> all_nodes Q n = true.
Proof.
  intros PQ. induction n as [t v d cs IH] using OTUINode_ind.
  rewrite !all_nodes_unfold. cbn [children].
  intros H. apply andb_true_iff in H as [H1 H2].
  apply andb_true_iff. split; [now apply PQ|].
  rewrite forallb_forall in *. rewrite Forall_forall in IH. auto.
Qed.

Lemma all_nodes_andb (P Q : OTUINode -> bool) (n : OTUINode) :
  all_nodes P n = true -> all_nodes Q n = true ->
  all_nodes (fun m => P m && Q m) n = true.
Proof.
  induction n as [t v d cs IH] using OTUINode_ind.
  rewrite !all_nodes_unfold. cbn [children].
  intros H K. apply andb_true_iff in H as [H1 H2].
  apply andb_true_iff in K as [K1 K2].
  rewrite H1, K1. cbn [andb].
  rewrite forallb_forall in *. rewrite Forall_forall in IH. auto.
Qed.

Lemma forallb_impl {A} (P Q : A -> bool) (l : list A) :
  (forall x, P x = true -> Q x = true) ->
  forallb P l = true -> forallb Q l = true.
Proof. rewrite !forallb_forall. auto. Qed.

Lemma no_break_rev (s : str) : no_break (rev s) = no_break s.
Proof.
  unfold no_break. destruct (forallb _ s) eqn:E.
  - rewrite forallb_forall in *. intros c Hc. apply E. now apply in_rev.
  - destruct (forallb _ (rev s)) eqn:E'; [|reflexivity].
    rewrite <- E. symmetry. rewrite forallb_forall in *.
    intros c Hc. apply E'. now apply in_rev in Hc.
Qed.

Lemma splitlines_from_no_break (s : str) (after_cr : bool) (cur : str) :
  no_break cur = true ->
  forallb no_break (splitlines_from after_cr cur s) = true.
Proof.
  revert after_cr cur; induction s as [|c s IH]; intros after_cr cur H;
    cbn [splitlines_from].
  - destruct cur as [|x cur]; [reflexivity|].
    cbn [forallb]. now rewrite no_break_rev, H.
  - destruct (after_cr && char_eqb c LF); [now apply IH|].
    destruct (is_linebreak c) eqn:E.
    + cbn [forallb]. rewrite no_break_rev, H. now apply IH.
    + apply IH. simpl. now rewrite E.
Qed.

Lemma splitlines_no_break (text : str) :
  forallb no_break (splitlines text) = true.
Proof. now apply splitlines_from_no_break. Qed.

Lemma skipn_incl (n : nat) (s : str) (c : char) : In c (skipn n s) -> In c s.
Proof.
  revert s; induction n as [|n IH]; intros [|x s]; simpl; auto.
Qed.

Lemma split_colon_no_colon (s : str) :
  split_colon s = None -> no_colon s = true.
Proof.
  induction s as [|c s IH]; simpl; [reflexivity|].
  destruct (char_eqb c COLON); [discriminate|].
  destruct (split_colon s) as [[a b]|]; [discriminate|]. auto.
Qed.

(** Trailing whitespace apart, a stripped prefix of a line starts as the
    line does. *)
Lemma startswith_strip_prefix (p a r : str) :
  lstrip (a ++ r) = a ++ r -> startswith p (a ++ r) = false ->
  startswith p (strip a) = false.
Proof.
  intros L S. destruct (startswith p (strip a)) eqn:E; [|reflexivity].
  assert (La : lstrip a = a).
  { destruct a as [|c a]; [reflexivity|]. unfold lstrip in *.
    apply drop_while_head in L. simpl. now rewrite L. }
  unfold strip in E. rewrite La in E.
  destruct (drop_while_end_split is_space a) as (tail & Ea & _).
  rewrite Ea, <- app_assoc in S.
  rewrite (startswith_app _ _ _ E) in S. discriminate.
Qed.

Lemma line_node_clean (indent_size : Z) (raw : str) (node : OTUINode) :
  no_break raw = true ->
  line_node indent_size raw = Ok (Some node) ->
  clean_node node = true.
Proof.
  intros Hraw. unfold line_node.
  set (stripped := lstrip (rstrip_chars [LF] raw)).
  assert (Hin : forall c, In c stripped -> In c raw).
  { intros c Hc. unfold stripped, lstrip, rstrip_chars in Hc.
    now apply drop_while_incl, drop_while_end_incl in Hc. }
  assert (Hl : lstrip stripped = stripped) by apply drop_while_idem.
  assert (Hnb : forall s, (forall c, In c s -> In c stripped) -> no_break (strip s) = true).
  { intros s Hs. apply (forallb_incl _ raw); [|exact Hraw].
    intros c Hc. apply Hin, Hs. now apply strip_incl. }
  destruct (str_eqb stripped []); [discriminate|].
  destruct (depth_of _ _ _) as [d|]; [|discriminate]. cbn [bind].
  destruct (startswith (py "//") stripped) eqn:Ec.
  - intros [= <-]. unfold clean_node. cbn [tag value].
    rewrite strip_trimmed, Hnb; [reflexivity|].
    intros c. exact (skipn_incl 2 stripped c).
  - destruct (split_colon stripped) as [[a b]|] eqn:Es.
    + destruct (split_colon_some _ _ _ Es) as [Eab Ca].
      intros [= <-]. unfold clean_node. cbn [tag value].
      assert (Ca' : no_colon (strip a) = true)
        by exact (forallb_incl _ a _ (strip_incl a) Ca).
      assert (Ba : no_break (strip a) = true).
      { apply Hnb. intros c Hc. rewrite Eab. apply in_or_app. now left. }
      assert (Bb : no_break (strip b) = true).
      { apply Hnb. intros c Hc. rewrite Eab. apply in_or_app. right. now right. }
      rewrite Eab in Hl, Ec.
      rewrite !strip_trimmed, Ba, Bb, Ca'.
      now rewrite (startswith_strip_prefix _ _ _ Hl Ec).
    + intros [= <-]. unfold clean_node. cbn [tag value].
      assert (Cs : no_colon (strip stripped) = true)
        by exact (forallb_incl _ stripped _ (strip_incl stripped)
                    (split_colon_no_colon _ Es)).
      rewrite !strip_trimmed, Hnb, Cs by auto.
      rewrite <- (app_nil_r stripped) in Hl, Ec.
      now rewrite (startswith_strip_prefix _ _ _ Hl Ec).
Qed.

Lemma clean_add_child (g top : OTUINode) :
  all_nodes clean_node g = true -> all_nodes clean_node top = true ->
  all_nodes clean_node (add_child g top) = true.
Proof.
  rewrite (all_nodes_unfold _ g), (all_nodes_unfold _ (add_child g top)).
  intros Hg Ht. apply andb_true_iff in Hg as [Hg1 Hg2].
  assert (E : clean_node (add_child g top) = clean_node g) by reflexivity.
  rewrite E, Hg1. cbn [add_child children andb].
  rewrite forallb_app, Hg2. cbn [forallb]. now rewrite Ht.
Qed.

Lemma zip_clean (below : list OTUINode) (top : OTUINode) :
  all_nodes clean_node top = true ->
  Forall (fun g => all_nodes clean_node g = true) below ->
  all_nodes clean_node (zip top below) = true.
Proof.
  revert top; induction below as [|g rest IH]; intros top Ht Hb; simpl;
    [exact Ht|].
  inversion Hb; subst. apply IH; auto using clean_add_child.
Qed.

Lemma flush_clean (d : Z) (below : list OTUINode) (top t : OTUINode) (b : list OTUINode) :
  all_nodes clean_node top = true ->
  Forall (fun g => all_nodes clean_node g = true) below ->
  flush d top below = Some (t, b) ->
  all_nodes clean_node t = true
  /\ Forall (fun g => all_nodes clean_node g = true) b.
Proof.
  revert top; induction below as [|g rest IH]; intros top Ht Hb; cbn [flush].
  - destruct (d <=? depth top); [discriminate|]. intros [= <- <-]. auto.
  - destruct (d <=? depth top).
    + inversion Hb; subst. apply IH; auto using clean_add_child.
    + intros [= <- <-]. auto.
Qed.

Lemma frun_clean (indent_size : Z) (lines : list str)
    (top t : OTUINode) (below b : list OTUINode) :
  forallb no_break lines = true ->
  all_nodes clean_node top = true ->
  Forall (fun g => all_nodes clean_node g = true) below ->
  frun indent_size (top, below) lines = Ok (t, b) ->
  all_nodes clean_node t = true
  /\ Forall (fun g => all_nodes clean_node g = true) b.
Proof.
  revert top below; induction lines as [|raw rest IH];
    intros top below Hl Ht Hb; cbn [frun].
  - intros [= <- <-]. auto.
  - simpl in Hl. apply andb_true_iff in Hl as [Hraw Hrest].
    destruct (line_node indent_size raw) as [[node|]|e] eqn:L; cbn [bind];
      [| now apply IH | discriminate].
    unfold fstep. cbn [fst snd].
    destruct (flush (depth node) top below) as [[t1 b1]|] eqn:F;
      [|discriminate]. cbn [bind].
    destruct (flush_clean _ _ _ _ _ Ht Hb F) as [Ht1 Hb1].
    apply IH; auto.
    rewrite all_nodes_unfold, (line_node_leaf _ _ _ L).
    now rewrite (line_node_clean _ _ _ Hraw L).
Qed.

(** The value of the root is never written to. *)
Lemma zip_value (below : list OTUINode) (top : OTUINode) :
  value (zip top below) = value (bottom top below).
Proof.
  revert top; induction below as [|g rest IH]; intros top; simpl; [auto|].
  rewrite IH. destruct rest; reflexivity.
Qed.

Lemma flush_value (d : Z) (below : list OTUINode) (top t : OTUINode) (b : list OTUINode) :
  flush d top below = Some (t, b) ->
  value (bottom t b) = value (bottom top below).
Proof.
  revert top; induction below as [|g rest IH]; intros top; cbn [flush].
  - destruct (d <=? depth top); [discriminate|]. now intros [= <- <-].
  - destruct (d <=? depth top).
    + intros F. rewrite (IH _ F). destruct rest; reflexivity.
    + now intros [= <- <-].
Qed.

Lemma frun_value (indent_size : Z) (lines : list str)
    (top t : OTUINode) (below b : list OTUINode) :
  frun indent_size (top, below) lines = Ok (t, b) ->
  value (bottom t b) = value (bottom top below).
Proof.
  revert top below; induction lines as [|raw rest IH]; intros top below;
    cbn [frun].
  - now intros [= <- <-].
  - destruct (line_node indent_size raw) as [[node|]|e]; cbn [bind];
      [| apply IH | discriminate].
    unfold fstep. cbn [fst snd].
    destruct (flush (depth node) top below) as [[t1 b1]|] eqn:F;
      [|discriminate]. cbn [bind].
    intros R. rewrite (IH _ _ R). cbn [bottom]. apply (flush_value _ _ _ _ _ F).
Qed.

(** ** The round trip *)

Lemma tree_eqb_redepth (n : OTUINode) (k : Z) : tree_eqb n (redepth k n) = true.
Proof.
  revert k; induction n as [t v d cs IH] using OTUINode_ind; intros k.
  cbn [tree_eqb redepth]. rewrite !str_eqb_refl. cbn [andb].
  induction IH as [|c cs Hc _ IHcs]; cbn [map]; [reflexivity|].
  now rewrite Hc, IHcs.
Qed.

Lemma render_lines_no_break (indent_size : Z) (n : OTUINode) (k : Z) :
  all_nodes clean_node n = true ->
  forallb no_break (map (render_line indent_size) (preorder k n)) = true.
Proof.
  revert k; induction n as [t v d cs IH] using OTUINode_ind; intros k.
  rewrite all_nodes_unfold. cbn [children]. intros H.
  apply andb_true_iff in H as [H1 H2].
  cbn [preorder map forallb]. rewrite (render_no_break _ _ _ H1). cbn [andb].
  induction IH as [|c cs Hc _ IHcs]; [reflexivity|].
  simpl in H2. apply andb_true_iff in H2 as [H2 H3].
  cbn [flat_map]. rewrite map_app, forallb_app, Hc, IHcs; auto.
Qed.

Lemma forest_lines_no_break (indent_size : Z) (cs : list OTUINode) (k : Z) :
  forallb (all_nodes clean_node) cs = true ->
  forallb no_break (map (render_line indent_size) (flat_map (preorder k) cs)) = true.
Proof.
  induction cs as [|c cs IH]; [reflexivity|].
  simpl. intros H. apply andb_true_iff in H as [H1 H2].
  rewrite map_app, forallb_app, render_lines_no_break, IH; auto.
Qed.

Lemma to_string_lines (indent_size : Z) (root : OTUINode) :
  tag root = py "Root" ->
  forallb (all_nodes plain_node) (children root) = true ->
  to_string indent_size root
  = concat (map (fun l => l ++ [LF])
              (map (render_line indent_size) (flat_map (preorder 0) (children root)))).
Proof.
  destruct root as [t v d cs]. cbn [tag children]. intros Ht Hcs.
  unfold to_string. rewrite (write_root indent_size t v d cs Ht Hcs).
  destruct (map _ _) as [|l ls]; [reflexivity|]. apply join_lf.
Qed.

(** C1, amended.  For every text, whatever its indentation, [parse_text]
    returns a tree; when below the root no node is tagged "Root", no
    comment node has children and no node has both an empty tag and an
    empty value, parsing the serialized tree gives a tree with the same
    tags, values and children in the same order, the stored depths set
    apart. *)
Theorem round_trip (indent_size : Z) (text : str) :
  0 < indent_size ->
  exists t,
    parse_text indent_size text = Ok t
    /\ (forallb (all_nodes reparsed_node) (children t) = true ->
        exists t',
          parse_text indent_size (to_string indent_size t) = Ok t'
          /\ tree_eqb t t' = true).
Proof.
  intros Hpos.
  destruct (frun_total indent_size Hpos (splitlines text) root0 [])
    as (t0 & b0 & F & Ht & _ & _); [simpl; lia|].
  exists (zip t0 b0). rewrite parse_text_frames, F. cbn [bind fst snd].
  split; [reflexivity|]. intros Hre.
  assert (Hclean : all_nodes clean_node (zip t0 b0) = true).
  { destruct (frun_clean indent_size _ root0 t0 [] b0
                (splitlines_no_break text) eq_refl (Forall_nil _) F) as [A B].
    now apply zip_clean. }
  assert (Htag : tag (zip t0 b0) = py "Root").
  { destruct (zip_bottom b0 t0) as [-> _]. exact Ht. }
  assert (Hval : value (zip t0 b0) = []).
  { rewrite zip_value. apply (frun_value _ _ _ _ _ _ F). }
  destruct (zip t0 b0) as [tg v d cs]. cbn [tag value children] in *.
  subst tg v.
  rewrite all_nodes_unfold in Hclean. cbn [children] in Hclean.
  apply andb_true_iff in Hclean as [_ Hclean].
  assert (Hplain : forallb (all_nodes plain_node) cs = true).
  { revert Hre. apply forallb_impl. intros c. apply all_nodes_impl.
    unfold reparsed_node. intros m Hm. now apply andb_true_iff in Hm. }
  rewrite (to_string_lines indent_size (Node (py "Root") [] d cs) eq_refl Hplain).
  cbn [children].
  assert (Hread : forallb (all_nodes (fun n => clean_node n && has_text n)) cs = true).
  { apply forallb_forall. intros c Hc.
    apply all_nodes_andb.
    - revert c Hc. now apply forallb_forall.
    - apply (all_nodes_impl reparsed_node).
      + unfold reparsed_node. intros m Hm. now apply andb_true_iff in Hm.
      + revert c Hc. now apply forallb_forall. }
  destruct (children_parsed indent_size Hpos cs Hread) as (st' & R & Z).
  exists (Node (py "Root") [] (-1) (map (redepth 0) cs)).
  rewrite parse_text_frames, splitlines_concat
    by (now apply forest_lines_no_break).
  rewrite R. cbn [bind]. rewrite Z. split; [reflexivity|].
  exact (tree_eqb_redepth (Node (py "Root") [] d cs) (-1)).
Qed.

Lemma round_trip_witness :
  exists t t',
    parse_text 2 (text_of ["win  "; "      id : w1"; "  // note: x"; " :v"; "";
                           "   a:"]%string) = Ok t
    /\ forallb (all_nodes reparsed_node) (children t) = true
    /\ parse_text 2 (to_string 2 t) = Ok t'
    /\ tree_eqb t t' = true.
Proof.
  destruct (round_trip 2 (text_of ["win  "; "      id : w1"; "  // note: x";
                                   " :v"; ""; "   a:"]%string))
    as (t & P & H); [lia|].
  assert (A : forallb (all_nodes reparsed_node) (children t) = true).
  { vm_compute in P. injection P as <-. reflexivity. }
  destruct (H A) as (t' & P' & E).
  exists t, t'. auto.
Defined.

(** C1 as stated fails, also on regular indentation: a line tagged
    "Root" is not written back, and its children move up. *)
Lemma round_trip_counterexample :
  consistent_indent 2 (text_of ["Root"; "  a"]%string) = true
  /\ exists t t',
       parse_text 2 (text_of ["Root"; "  a"]%string) = Ok t
       /\ parse_text 2 (to_string 2 t) = Ok t'
       /\ tree_eqb t t' = false.
Proof.
  split; [reflexivity|].
  exists (Node (py "Root") [] (-1) [Node (py "Root") [] 0 [Node (py "a") [] 1 []]]),
         (Node (py "Root") [] (-1) [Node (py "a") [] 0 []]).
  repeat split.
Qed.

(** A line that is a lone colon has an empty tag and value: it is written
    as an empty line, which is skipped when read. *)
Example round_trip_lone_colon :
  consistent_indent 2 (text_of ["a"; "  :"]%string) = true
  /\ parse_text 2 (text_of ["a"; "  :"]%string)
     = Ok (Node (py "Root") [] (-1) [Node (py "a") [] 0 [Node [] [] 1 []]])
  /\ (t <- parse_text 2 (text_of ["a"; "  :"]%string) ;;
      parse_text 2 (to_string 2 t))
     = Ok (Node (py "Root") [] (-1) [Node (py "a") [] 0 []]).
Proof. repeat split. Qed.

(** The children of a comment are not written, so they are lost. *)
Example round_trip_comment_children :
  consistent_indent 2 (text_of ["// note"; "  child: x"]%string) = true
  /\ parse_text 2 (text_of ["// note"; "  child: x"]%string)
     = Ok (Node (py "Root") [] (-1)
             [Node (py "//") (py "note") 0 [Node (py "child") (py "x") 1 []]])
  /\ (t <- parse_text 2 (text_of ["// note"; "  child: x"]%string) ;;
      parse_text 2 (to_string 2 t))
     = Ok (Node (py "Root") [] (-1) [Node (py "//") (py "note") 0 []]).
Proof. repeat split. Qed.

(** ** The known directory names *)

Lemma likely_dir_first (h : Host) (mod_dir : Path) (ds : list str) :
  (exists d, In d ds /\ is_dir h (join_str mod_dir d) = true) ->
  exists before d after,
    ds = before ++ d :: after
    /\ (forall d', In d' before -> is_dir h (join_str mod_dir d') = false)
    /\ is_dir h (join_str mod_dir d) = true
    /\ likely_dir h mod_dir ds = Some (join_str mod_dir d).
Proof.
  induction ds as [|d0 ds IH]; intros (d & Hin & Hd); [destruct Hin|].
  cbn [likely_dir].
  destruct (is_dir h (join_str mod_dir d0)) eqn:E.
  - exists [], d0, ds. repeat split; auto. intros d' [].
  - destruct IH as (before & d1 & after & -> & Hb & H1 & L).
    + destruct Hin as [<-|Hin]; [congruence|]. now exists d.
    + exists (d0 :: before), d1, after. repeat split; auto.
      intros d' [<-|Hd']; auto.
Qed.

Lemma likely_dir_ext (h h' : Host) (mod_dir : Path) (ds : list str) :
  (forall p, is_dir h' p = is_dir h p) ->
  likely_dir h' mod_dir ds = likely_dir h mod_dir ds.
Proof.
  intros E. induction ds as [|d ds IH]; [reflexivity|].
  cbn [likely_dir]. now rewrite E, IH.
Qed.

(** C8. When one of images, textures, icons, img, resources, assets is a
    directory under the directory of the document, the result is the
    first of them in that order.  Neither the tree nor the rest of the
    filesystem is looked at: any tree, and any host that has the same
    directories, gives the same result. *)
Theorem likely_dir_wins (h : Host) (otui_path : Path) (root : OTUINode) :
  (exists d, In d LIKELY_DIRS
             /\ is_dir h (join_str (parent otui_path) d) = true) ->
  exists before d after,
    LIKELY_DIRS = before ++ d :: after
    /\ (forall d', In d' before -> is_dir h (join_str (parent otui_path) d') = false)
    /\ is_dir h (join_str (parent otui_path) d) = true
    /\ discover_images_base h otui_path root = Some (join_str (parent otui_path) d)
    /\ forall (h' : Host) (root' : OTUINode),
         (forall p, is_dir h' p = is_dir h p) ->
         discover_images_base h' otui_path root'
         = Some (join_str (parent otui_path) d).
Proof.
  intros H.
  destruct (likely_dir_first h _ _ H) as (before & d & after & E & Hb & Hd & L).
  exists before, d, after. repeat split; auto.
  - unfold discover_images_base. now rewrite L.
  - intros h' root' Hh. unfold discover_images_base.
    now rewrite (likely_dir_ext h h' _ _ Hh), L.
Qed.

Lemma likely_dir_wins_witness :
  exists before d after,
    LIKELY_DIRS = before ++ d :: after
    /\ (forall d', In d' before ->
         is_dir host_icons (join_str (parent (parse_path (py "/ui/main.otui"))) d')
         = false)
    /\ is_dir host_icons (join_str (parent (parse_path (py "/ui/main.otui"))) d) = true
    /\ discover_images_base host_icons (parse_path (py "/ui/main.otui")) root0
       = Some (join_str (parent (parse_path (py "/ui/main.otui"))) d)
    /\ forall (h' : Host) (root' : OTUINode),
         (forall p, is_dir h' p = is_dir host_icons p) ->
         discover_images_base h' (parse_path (py "/ui/main.otui")) root'
         = Some (join_str (parent (parse_path (py "/ui/main.otui"))) d).
Proof.
  apply likely_dir_wins. exists (py "assets").
  split; [simpl; tauto|reflexivity].
Defined.

Example likely_dir_icons :
  discover_images_base host_icons (parse_path (py "/ui/main.otui")) root0
  = Some (parse_path (py "/ui/icons")).
Proof. reflexivity. Qed.

(** ** Resolving an image value *)

Lemma strs_eqb_eq (a b : list str) : strs_eqb a b = true -> a = b.
Proof.
  revert b; induction a as [|x a IH]; intros [|y b]; simpl; try discriminate;
    [reflexivity|].
  intros H. apply andb_true_iff in H as [H1 H2].
  apply str_eqb_eq in H1. apply IH in H2. congruence.
Qed.

Lemma path_eqb_eq (p q : Path) : path_eqb p q = true -> p = q.
Proof.
  destruct p, q. unfold path_eqb. simpl. intros H.
  apply andb_true_iff in H as [H1 H2].
  apply str_eqb_eq in H1. apply strs_eqb_eq in H2. congruence.
Qed.

(** The set of paths already seen only holds paths that do not exist, so
    it never hides the first existing one. *)
Lemma first_existing_find (h : Host) (cs seen : list Path) :
  (forall s, In s seen -> path_exists h s = false) ->
  first_existing h seen cs = find (path_exists h) (map (path_resolve h) cs).
Proof.
  revert seen; induction cs as [|c cs IH]; intros seen Hseen; [reflexivity|].
  cbn [first_existing map find].
  destruct (existsb (path_eqb (path_resolve h c)) seen) eqn:E.
  - apply existsb_exists in E as (s & Hs & Es).
    apply path_eqb_eq in Es. rewrite Es, (Hseen s Hs). now apply IH.
  - destruct (path_exists h (path_resolve h c)) eqn:X; [reflexivity|].
    apply IH. intros s [<-|Hs]; auto.
Qed.

Lemma last_app_nonempty {A} (a b : list A) (d : A) :
  b <> [] -> last (a ++ b) d = last b d.
Proof.
  intros Hb. induction a as [|x a IH]; [reflexivity|].
  simpl. destruct (a ++ b) eqn:E; [|exact IH].
  apply app_eq_nil in E as [_ ->]. contradiction.
Qed.

Lemma name_join_str (b : Path) (v : str) :
  name (parse_path v) <> [] -> name (join_str b v) = name (parse_path v).
Proof.
  unfold join_str, join_path, name. intros H.
  destruct (anchor (parse_path v)); [|reflexivity].
  cbn [parts]. apply last_app_nonempty.
  intros E. rewrite E in H. now apply H.
Qed.

Lemma base_candidates_no_ext (b : Path) (v : str) :
  name (parse_path v) <> [] ->
  snd (splitext (name (parse_path v))) = [] ->
  base_candidates b v = map (fun e => join_str b (v ++ e)) IMG_EXTS.
Proof.
  intros Hn He. unfold base_candidates.
  now rewrite name_join_str, He by exact Hn.
Qed.

(** C7, amended.  For a value that is not empty, whose normalized form
    has a last component, without extension: the candidates are one per
    image extension in the order .png, .jpg, .jpeg, .bmp, .webp, .gif,
    first under the images base when there is one, then under the
    document directory, followed by the files of that name found under
    the document directory; the result is the first candidate, in that
    order, whose canonical form exists, in canonical form.  So "icons/play"
    resolves to base/icons/play.png as soon as that file exists. *)
Theorem resolve_extension_inference :
  (forall (h : Host) (images_base : option Path) (otui_dir : Path) (val : str),
     val <> [] ->
     name (parse_path (normalize val)) <> [] ->
     snd (splitext (name (parse_path (normalize val)))) = [] ->
     resolve_image h images_base otui_dir val
     = find (path_exists h)
         (map (path_resolve h)
            (ext_candidates images_base otui_dir (normalize val)
             ++ basename_candidates h otui_dir (normalize val))))
  /\ (forall (h : Host) (base otui_dir : Path),
        path_exists h (path_resolve h (join_str base (py "icons/play.png"))) = true ->
        resolve_image h (Some base) otui_dir (py "icons/play")
        = Some (path_resolve h (join_str base (py "icons/play.png")))).
Proof.
  assert (G : forall (h : Host) (images_base : option Path) (otui_dir : Path) (val : str),
     val <> [] ->
     name (parse_path (normalize val)) <> [] ->
     snd (splitext (name (parse_path (normalize val)))) = [] ->
     resolve_image h images_base otui_dir val
     = find (path_exists h)
         (map (path_resolve h)
            (ext_candidates images_base otui_dir (normalize val)
             ++ basename_candidates h otui_dir (normalize val)))).
  { intros h images_base otui_dir val Hval Hn He.
    unfold resolve_image. destruct val as [|c val]; [contradiction|].
    rewrite first_existing_find by (intros s []).
    unfold candidates, ext_candidates.
    rewrite (base_candidates_no_ext otui_dir _ Hn He).
    destruct images_base as [base|].
    - rewrite (base_candidates_no_ext base _ Hn He). now rewrite <- app_assoc.
    - reflexivity. }
  split; [exact G|].
  intros h base otui_dir Hex.
  rewrite G; try discriminate.
  - change (normalize (py "icons/play")) with (py "icons/play").
    cbn [ext_candidates IMG_EXTS map app find].
    change (py "icons/play" ++ py ".png") with (py "icons/play.png").
    now rewrite Hex.
  - reflexivity.
Qed.

Lemma resolve_extension_inference_witness :
  resolve_image host_play (Some (parse_path (py "/ui/images")))
    (parse_path (py "/ui")) (py "icons/play")
  = Some (parse_path (py "/ui/images/icons/play.png")).
Proof.
  destruct resolve_extension_inference as [_ H].
  apply (H host_play (parse_path (py "/ui/images")) (parse_path (py "/ui"))).
  reflexivity.
Defined.

(** C7 as stated fails for the empty value: it has no extension and a
    candidate exists, yet nothing is resolved. *)
Lemma resolve_empty_value_counterexample :
  snd (splitext (name (parse_path (normalize [])))) = []
  /\ find (path_exists host_dotpng)
       (map (path_resolve host_dotpng)
          (ext_candidates (Some (parse_path (py "/ui/images")))
             (parse_path (py "/ui")) (normalize [])))
     = Some (parse_path (py "/ui/images/.png"))
  /\ resolve_image host_dotpng (Some (parse_path (py "/ui/images")))
       (parse_path (py "/ui")) []
     = None.
Proof. repeat split. Qed.

(** ** Decorated values *)

Lemma drop_while_all_app (f : char -> bool) (pre s : str) :
  forallb f pre = true -> drop_while f (pre ++ s) = drop_while f s.
Proof.
  induction pre as [|c pre IH]; simpl; [reflexivity|].
  intros H. apply andb_true_iff in H as [-> H]. now apply IH.
Qed.

Lemma drop_while_end_all_app (f : char -> bool) (s post : str) :
  forallb f post = true -> drop_while_end f (s ++ post) = drop_while_end f s.
Proof.
  intros H. unfold drop_while_end. rewrite rev_app_distr.
  rewrite drop_while_all_app; [reflexivity|].
  rewrite forallb_forall in *. intros c Hc. apply H. now apply in_rev.
Qed.

Lemma drop_while_end_snoc (f : char -> bool) (s : str) (c : char) :
  f c = false -> drop_while_end f (s ++ [c]) = s ++ [c].
Proof.
  intros E. unfold drop_while_end. rewrite rev_app_distr. simpl.
  rewrite E. simpl. now rewrite rev_involutive.
Qed.

Lemma strip_wrapped (f : char -> bool) (pre s post : str) :
  forallb f pre = true -> forallb f post = true ->
  s <> [] -> drop_while f s = s -> drop_while_end f s = s ->
  drop_while_end f (drop_while f (pre ++ s ++ post)) = s.
Proof.
  intros Hpre Hpost Hs Hl Hr.
  rewrite drop_while_all_app by exact Hpre.
  rewrite drop_while_fixed_app by assumption.
  now rewrite drop_while_end_all_app.
Qed.

Lemma drop_while_end_length (f : char -> bool) (s : str) :
  (length (drop_while_end f s) <= length s)%nat.
Proof.
  unfold drop_while_end. rewrite length_rev.
  pose proof (drop_while_length f (rev s)) as L. now rewrite length_rev in L.
Qed.

Lemma drop_while_shorter (f : char -> bool) (s : str) :
  drop_while f s = s \/ (length (drop_while f s) < length s)%nat.
Proof.
  destruct s as [|c s]; [now left|]. simpl.
  destruct (f c); [right|now left].
  pose proof (drop_while_length f s). lia.
Qed.

Lemma strip_fixed_parts (f : char -> bool) (v : str) :
  drop_while_end f (drop_while f v) = v ->
  drop_while f v = v /\ drop_while_end f v = v.
Proof.
  intros E. destruct (drop_while_shorter f v) as [L|L].
  - rewrite L in E. auto.
  - pose proof (drop_while_end_length f (drop_while f v)) as L'.
    rewrite E in L'. lia.
Qed.

Lemma bare_spec (v : str) :
  bare v = true ->
  v <> []
  /\ (lstrip v = v /\ rstrip v = v)
  /\ (lstrip_chars [SQUOTE] v = v /\ rstrip_chars [SQUOTE] v = v)
  /\ (lstrip_chars [DQUOTE] v = v /\ rstrip_chars [DQUOTE] v = v).
Proof.
  unfold bare. rewrite !andb_true_iff, negb_true_iff, !str_eqb_eq, str_eqb_neq.
  intros (((H0 & H1) & H2) & H3).
  split; [exact H0|].
  split; [|split]; now apply strip_fixed_parts.
Qed.

(** A bare value in quotes, in whitespace, normalizes as the value. *)
Lemma normalize_decorated (v ws1 ws2 q : str) :
  bare v = true ->
  forallb is_space ws1 = true -> forallb is_space ws2 = true ->
  q = [] \/ q = [SQUOTE] \/ q = [DQUOTE] ->
  normalize (ws1 ++ (q ++ v ++ q) ++ ws2) = normalize v.
Proof.
  intros Hb H1 H2 Hq.
  destruct (bare_spec v Hb) as (Hne & [Sl Sr] & [Ql Qr] & [Dl Dr]).
  assert (Hv : strip_chars [DQUOTE] (strip_chars [SQUOTE] (strip v)) = v).
  { unfold strip, strip_chars. now rewrite Sl, Sr, Ql, Qr, Dl, Dr. }
  assert (Q : strip_chars [SQUOTE] v = v)
    by (unfold strip_chars; now rewrite Ql, Qr).
  assert (D : strip_chars [DQUOTE] v = v)
    by (unfold strip_chars; now rewrite Dl, Dr).
  unfold normalize. rewrite Hv. do 2 f_equal.
  destruct Hq as [ -> | [ -> | -> ] ];
    [ change ([] ++ v ++ []) with (v ++ [])
    | change ([SQUOTE] ++ v ++ [SQUOTE]) with (SQUOTE :: v ++ [SQUOTE])
    | change ([DQUOTE] ++ v ++ [DQUOTE]) with (DQUOTE :: v ++ [DQUOTE]) ].
  - rewrite app_nil_r. unfold strip, lstrip, rstrip.
    rewrite strip_wrapped by assumption. now rewrite Q, D.
  - unfold strip, lstrip, rstrip.
    rewrite (strip_wrapped is_space ws1 (SQUOTE :: v ++ [SQUOTE]) ws2);
      auto; try discriminate.
    + unfold strip_chars at 2. unfold lstrip_chars, rstrip_chars.
      change (SQUOTE :: v ++ [SQUOTE]) with ([SQUOTE] ++ v ++ [SQUOTE]).
      rewrite (strip_wrapped (mem_char [SQUOTE]) [SQUOTE] v [SQUOTE]); auto.
    + change (SQUOTE :: v ++ [SQUOTE]) with ((SQUOTE :: v) ++ [SQUOTE]).
      now apply drop_while_end_snoc.
  - unfold strip, lstrip, rstrip.
    rewrite (strip_wrapped is_space ws1 (DQUOTE :: v ++ [DQUOTE]) ws2);
      auto; try discriminate.
    + unfold strip_chars at 2. unfold lstrip_chars, rstrip_chars.
      change (drop_while (mem_char [SQUOTE]) (DQUOTE :: v ++ [DQUOTE]))
        with (DQUOTE :: v ++ [DQUOTE]).
      change (DQUOTE :: v ++ [DQUOTE]) with ((DQUOTE :: v) ++ [DQUOTE]) at 1.
      rewrite drop_while_end_snoc by reflexivity.
      apply (strip_wrapped (mem_char [DQUOTE]) [DQUOTE] v [DQUOTE]); auto.
    + change (DQUOTE :: v ++ [DQUOTE]) with ((DQUOTE :: v) ++ [DQUOTE]).
      now apply drop_while_end_snoc.
Qed.

Lemma resolve_image_normalize (h : Host) (base : option Path) (otui_dir : Path)
    (val val' : str) :
  val <> [] -> val' <> [] -> normalize val = normalize val' ->
  resolve_image h base otui_dir val = resolve_image h base otui_dir val'.
Proof.
  intros H H' E. unfold resolve_image.
  destruct val; [contradiction|]. destruct val'; [contradiction|].
  now rewrite E.
Qed.

(** C9, amended.  For a value that is not empty and has no outer
    whitespace or quote of its own, putting it in single or double quotes,
    or in none, and then in whitespace does not change the result.  So the
    value 'images/x.png' in single quotes between two spaces on each side
    resolves as images/x.png. *)
Theorem resolve_decoration :
  (forall (h : Host) (images_base : option Path) (otui_dir : Path)
          (v ws1 ws2 q : str),
     bare v = true ->
     forallb is_space ws1 = true -> forallb is_space ws2 = true ->
     q = [] \/ q = [SQUOTE] \/ q = [DQUOTE] ->
     resolve_image h images_base otui_dir (ws1 ++ (q ++ v ++ q) ++ ws2)
     = resolve_image h images_base otui_dir v)
  /\ (forall (h : Host) (images_base : option Path) (otui_dir : Path),
        resolve_image h images_base otui_dir (py "  'images/x.png'  ")
        = resolve_image h images_base otui_dir (py "images/x.png")).
Proof.
  assert (G : forall (h : Host) (images_base : option Path) (otui_dir : Path)
          (v ws1 ws2 q : str),
     bare v = true ->
     forallb is_space ws1 = true -> forallb is_space ws2 = true ->
     q = [] \/ q = [SQUOTE] \/ q = [DQUOTE] ->
     resolve_image h images_base otui_dir (ws1 ++ (q ++ v ++ q) ++ ws2)
     = resolve_image h images_base otui_dir v).
  { intros h images_base otui_dir v ws1 ws2 q Hb H1 H2 Hq.
    destruct (bare_spec v Hb) as (Hne & _).
    apply resolve_image_normalize.
    - intros E. apply app_eq_nil in E as [_ E].
      apply app_eq_nil in E as [E _]. apply app_eq_nil in E as [_ E].
      apply app_eq_nil in E as [E _]. contradiction.
    - exact Hne.
    - now apply normalize_decorated. }
  split; [exact G|].
  intros h images_base otui_dir.
  apply (G h images_base otui_dir (py "images/x.png") (py "  ") (py "  ") [SQUOTE]);
    auto.
Qed.

Lemma resolve_decoration_witness :
  resolve_image host_x None (parse_path (py "/ui"))
    ([SPACE] ++ ([DQUOTE] ++ py "x.png" ++ [DQUOTE]) ++ [SPACE; SPACE])
  = resolve_image host_x None (parse_path (py "/ui")) (py "x.png")
  /\ resolve_image host_x None (parse_path (py "/ui")) (py "x.png")
     = Some (parse_path (py "/ui/x.png")).
Proof.
  destruct resolve_decoration as [H _].
  split; [|reflexivity].
  apply (H host_x None (parse_path (py "/ui")) (py "x.png") [SPACE] [SPACE; SPACE]
           [DQUOTE]); auto.
Defined.

(** C9 as stated fails for a value that has quotes of its own: in double
    quotes, the single quotes of 'x.png' are no longer stripped. *)
Lemma resolve_decoration_counterexample :
  resolve_image host_x None (parse_path (py "/ui")) (py "'x.png'")
  = Some (parse_path (py "/ui/x.png"))
  /\ resolve_image host_x None (parse_path (py "/ui"))
       ([DQUOTE] ++ py "'x.png'" ++ [DQUOTE])
     = None.
Proof. split; reflexivity. Qed.

(** Whitespace inside the quotes is kept as well. *)
Example resolve_decoration_inner_space :
  resolve_image host_x None (parse_path (py "/ui")) (py "x.png")
  = Some (parse_path (py "/ui/x.png"))
  /\ resolve_image host_x None (parse_path (py "/ui")) (py "' x.png '") = None.
Proof. split; reflexivity. Qed.

(** ** The script scan *)



















Lemma likely_dir_none (h : Host) (mod_dir : Path) (ds : list str) :
  (forall d, In d ds -> is_dir h (join_str mod_dir d) = false) ->
  likely_dir h mod_dir ds = None.
Proof.
  induction ds as [|d ds IH]; intros H; [reflexivity|].
  cbn [likely_dir]. rewrite (H d) by now left.
  apply IH. intros d' Hd'. apply H. now right.
Qed.




(** * Further properties *)

(** ** [to_string] does not read the stored depth *)

Lemma fold_write_eq (indent_size : Z) (c1 : list OTUINode) :
  Forall (fun a => forall b, tree_eqb a b = true ->
            forall d out, write indent_size a d out = write indent_size b d out) c1 ->
  forall c2,
    (fix all2 (l1 l2 : list OTUINode) : bool :=
       match l1, l2 with
       | [], [] => true
       | x :: l1', y :: l2' => tree_eqb x y && all2 l1' l2'
       | _, _ => false
       end) c1 c2 = true ->
    forall d out,
      fold_left (fun out ch => write indent_size ch d out) c1 out
      = fold_left (fun out ch => write indent_size ch d out) c2 out.
Proof.
  induction 1 as [|a c1 Ha _ IH]; intros [|b c2] E d out; try discriminate;
    [reflexivity|].
  apply andb_true_iff in E as [E1 E2].
  cbn [fold_left]. rewrite (Ha b E1). now apply IH.
Qed.

Lemma write_eq (indent_size : Z) (a : OTUINode) :
  forall b, tree_eqb a b = true ->
  forall d out, write indent_size a d out = write indent_size b d out.
Proof.
  induction a as [t v dp cs IH] using OTUINode_ind.
  intros [t' v' dp' cs'] E d out. cbn [tree_eqb] in E.
  apply andb_true_iff in E as [E Ec]. apply andb_true_iff in E as [Et Ev].
  apply str_eqb_eq in Et. apply str_eqb_eq in Ev. subst t' v'.
  cbn [write].
  rewrite !(fold_write_eq indent_size cs IH cs' Ec).
  destruct (str_eqb t (py "Root")); [reflexivity|].
  destruct (str_eqb t (py "//")); reflexivity.
Qed.

(** X1. Two trees with the same tags, values and children in the same
    order are written as the same text, whatever depths they store. *)
Theorem to_string_ignores_depth (indent_size : Z) (a b : OTUINode) :
  tree_eqb a b = true -> to_string indent_size a = to_string indent_size b.
Proof.
  intros E. unfold to_string. now rewrite (write_eq indent_size a b E).
Qed.

Lemma to_string_ignores_depth_witness :
  to_string 2 (Node (py "Root") [] (-1)
                 [Node (py "a") [] 7 [Node (py "b") (py "1") 0 []]])
  = to_string 2 (Node (py "Root") [] 5
                 [Node (py "a") [] (-3) [Node (py "b") (py "1") 12 []]]).
Proof. apply to_string_ignores_depth. reflexivity. Defined.

(** ** Reading back what [to_string] wrote, for any tree *)

Lemma to_string_redepth (indent_size : Z) (v : str) (d : Z) (cs : list OTUINode) :
  to_string indent_size (Node (py "Root") [] (-1) (map (redepth 0) cs))
  = to_string indent_size (Node (py "Root") v d cs).
Proof.
  unfold to_string. cbn [write]. rewrite str_eqb_refl.
  pose proof (tree_eqb_redepth (Node (py "Root") v d cs) (-1)) as E.
  cbn [tree_eqb redepth] in E. rewrite !str_eqb_refl in E. cbn [andb] in E.
  change (-1 + 1) with 0 in E.
  rewrite <- (fold_write_eq indent_size cs
                (proj2 (Forall_forall _ _) (fun a _ => write_eq indent_size a))
                _ E).
  reflexivity.
Qed.

(** X2. A tree under a root tagged "Root" whose tags and values are as
    [parse_text] stores them (stripped, without line break, the tag
    without colon and not starting a comment), without a second "Root",
    a comment with children or a node without text, is read back from its
    text as it is, each stored depth replaced by the nesting level; and
    that tree is written as the same text again. *)
Theorem parse_to_string (indent_size : Z) (t : OTUINode) :
  0 < indent_size ->
  tag t = py "Root" ->
  forallb (all_nodes (fun n => clean_node n && reparsed_node n)) (children t) = true ->
  parse_text indent_size (to_string indent_size t)
  = Ok (Node (py "Root") [] (-1) (map (redepth 0) (children t)))
  /\ to_string indent_size (Node (py "Root") [] (-1) (map (redepth 0) (children t)))
     = to_string indent_size t.
Proof.
  intros Hpos Ht Hall. destruct t as [tg v d cs]. cbn [tag children] in *.
  subst tg. split; [|apply to_string_redepth].
  assert (Hclean : forallb (all_nodes clean_node) cs = true).
  { revert Hall. apply forallb_impl. intros c. apply all_nodes_impl.
    intros m Hm. now apply andb_true_iff in Hm. }
  assert (Hplain : forallb (all_nodes plain_node) cs = true).
  { revert Hall. apply forallb_impl. intros c. apply all_nodes_impl.
    intros m Hm. apply andb_true_iff in Hm as [_ Hm].
    unfold reparsed_node in Hm. now apply andb_true_iff in Hm. }
  assert (Hread : forallb (all_nodes (fun n => clean_node n && has_text n)) cs = true).
  { revert Hall. apply forallb_impl. intros c. apply all_nodes_impl.
    intros m Hm. apply andb_true_iff in Hm as [Hc Hm].
    unfold reparsed_node in Hm. apply andb_true_iff in Hm as [_ Hm].
    now rewrite Hc, Hm. }
  rewrite (to_string_lines indent_size (Node (py "Root") v d cs) eq_refl Hplain).
  cbn [children].
  destruct (children_parsed indent_size Hpos cs Hread) as (st' & R & Z).
  rewrite parse_text_frames, splitlines_concat
    by (now apply forest_lines_no_break).
  rewrite R. cbn [bind]. now rewrite Z.
Qed.

Lemma parse_to_string_witness :
  parse_text 4 (to_string 4 (Node (py "Root") (py "x") 9
                  [Node (py "Panel") [] 3
                     [Node (py "id") (py "main") 0 [];
                      Node (py "//") (py "todo: size") 8 []];
                   Node [] (py "v") 1 []]))
  = Ok (Node (py "Root") [] (-1)
          [Node (py "Panel") [] 0
             [Node (py "id") (py "main") 1 [];
              Node (py "//") (py "todo: size") 1 []];
           Node [] (py "v") 0 []]).
Proof.
  apply (parse_to_string 4
           (Node (py "Root") (py "x") 9
                  [Node (py "Panel") [] 3
                     [Node (py "id") (py "main") 0 [];
                      Node (py "//") (py "todo: size") 8 []];
                   Node [] (py "v") 1 []])); [lia|reflexivity|reflexivity].
Defined.

(** ** The parsed tree holds the lines in their order *)

Lemma nodes_unfold (n : OTUINode) : nodes n = n :: flat_map nodes (children n).
Proof. destruct n; reflexivity. Qed.

Lemma labels_add_child (g c : OTUINode) :
  map label (nodes (add_child g c)) = map label (nodes g) ++ map label (nodes c).
Proof.
  rewrite (nodes_unfold (add_child g c)), (nodes_unfold g).
  cbn [add_child children map]. rewrite flat_map_app. cbn [flat_map].
  rewrite app_nil_r, map_app. reflexivity.
Qed.

Lemma frame_labels_add_child (g top : OTUINode) (rest : list OTUINode) :
  frame_labels (add_child g top) rest = frame_labels g rest ++ map label (nodes top).
Proof.
  destruct rest as [|g' r]; cbn [frame_labels]; rewrite labels_add_child;
    [reflexivity|now rewrite app_assoc].
Qed.

Lemma zip_labels (below : list OTUINode) (top : OTUINode) :
  map label (nodes (zip top below)) = frame_labels top below.
Proof.
  revert top; induction below as [|g rest IH]; intros top; [reflexivity|].
  cbn [zip frame_labels]. rewrite IH. apply frame_labels_add_child.
Qed.

Lemma flush_labels (d : Z) (below : list OTUINode) (top t : OTUINode) (b : list OTUINode) :
  flush d top below = Some (t, b) -> frame_labels t b = frame_labels top below.
Proof.
  revert top; induction below as [|g rest IH]; intros top; cbn [flush].
  - destruct (d <=? depth top); [discriminate|]. now intros [= <- <-].
  - destruct (d <=? depth top).
    + intros F. rewrite (IH _ F). apply frame_labels_add_child.
    + now intros [= <- <-].
Qed.

Lemma frun_labels (indent_size : Z) (lines : list str)
    (top t : OTUINode) (below b : list OTUINode) :
  frun indent_size (top, below) lines = Ok (t, b) ->
  frame_labels t b = frame_labels top below ++ line_nodes indent_size lines.
Proof.
  unfold line_nodes.
  revert top below; induction lines as [|raw rest IH]; intros top below;
    cbn [frun flat_map].
  - intros [= <- <-]. now rewrite app_nil_r.
  - destruct (line_node indent_size raw) as [[node|]|e] eqn:L; cbn [bind];
      [| apply IH | discriminate].
    unfold fstep. cbn [fst snd].
    destruct (flush (depth node) top below) as [[t1 b1]|] eqn:F;
      [|discriminate]. cbn [bind].
    intros R. rewrite (IH _ _ R). cbn [frame_labels].
    rewrite (flush_labels _ _ _ _ _ F), (nodes_unfold node).
    rewrite (line_node_leaf _ _ _ L). cbn [flat_map map app].
    assert (E : label node = node).
    { destruct node as [tg vl dp cs]. pose proof (line_node_leaf _ _ _ L) as C.
      cbn [children] in C. subst cs. reflexivity. }
    rewrite E, <- app_assoc. reflexivity.
Qed.

(** X3. The tree that [parse_text] returns holds exactly the non-blank
    lines, in their order: walking it in pre-order below the root gives,
    for each such line in turn, its tag, its value and its depth (the
    leading whitespace divided by the indent size). *)
Theorem parse_text_preorder (indent_size : Z) (text : str) :
  0 < indent_size ->
  exists root,
    parse_text indent_size text = Ok root
    /\ map label (flat_map nodes (children root))
       = line_nodes indent_size (splitlines text)
    /\ length (line_nodes indent_size (splitlines text))
       = length (filter nonblank (splitlines text)).
Proof.
  intros Hpos.
  destruct (frun_total indent_size Hpos (splitlines text) root0 [])
    as (t & b & F & _); [simpl; lia|].
  exists (zip t b). rewrite parse_text_frames, F. cbn [bind fst snd].
  split; [reflexivity|]. split.
  - pose proof (frun_labels _ _ _ _ _ _ F) as L.
    rewrite <- zip_labels, nodes_unfold in L.
    cbn [frame_labels nodes root0 flat_map map app] in L.
    now injection L.
  - unfold line_nodes. clear F.
    induction (splitlines text) as [|raw rest IH]; [reflexivity|].
    cbn [flat_map filter]. rewrite length_app, IH.
    destruct (line_node_cases indent_size Hpos raw)
      as [[-> ->]|(-> & node & -> & _)]; reflexivity.
Qed.

Lemma parse_text_preorder_witness :
  exists root,
    parse_text 2 (text_of ["a"; "     b: 1"; ""; " // c"; "d:"]%string) = Ok root
    /\ map label (flat_map nodes (children root))
       = [Node (py "a") [] 0 []; Node (py "b") (py "1") 2 [];
          Node (py "//") (py "c") 0 []; Node (py "d") [] 0 []].
Proof.
  destruct (parse_text_preorder 2 (text_of ["a"; "     b: 1"; ""; " // c"; "d:"]%string))
    as (root & P & L & _); [lia|].
  exists root. split; [exact P|exact L].
Defined.

(** ** Indent sizes that are not positive *)

Lemma line_node_zero (raw : str) :
  line_node 0 raw = if nonblank raw then Raise ZeroDivisionError else Ok None.
Proof.
  unfold line_node, nonblank.
  destruct (str_eqb (lstrip (rstrip_chars [LF] raw)) []); reflexivity.
Qed.

Lemma frun_zero (lines : list str) (st : fstate) :
  frun 0 st lines
  = if existsb nonblank lines then Raise ZeroDivisionError else Ok st.
Proof.
  induction lines as [|raw rest IH]; [reflexivity|].
  cbn [frun existsb]. rewrite line_node_zero.
  destruct (nonblank raw); [reflexivity|]. cbn [bind orb]. exact IH.
Qed.

(** X4. With indent size 0, [parse_text] raises ZeroDivisionError as soon
    as the text has a line that is not blank; a text of blank lines only
    gives the root without children. *)
Theorem parse_text_zero_indent (text : str) :
  parse_text 0 text
  = if existsb nonblank (splitlines text) then Raise ZeroDivisionError
    else Ok (Node (py "Root") [] (-1) []).
Proof.
  rewrite parse_text_frames, frun_zero.
  destruct (existsb nonblank (splitlines text)); reflexivity.
Qed.

Lemma line_node_nonzero (indent_size : Z) (raw : str) :
  indent_size <> 0 ->
  (nonblank raw = false /\ line_node indent_size raw = Ok None) \/
  (nonblank raw = true /\
   exists node, line_node indent_size raw = Ok (Some node)
     /\ children node = []
     /\ depth node = leading_ws raw / indent_size).
Proof.
  intros Hnz.
  destruct (nonblank raw) eqn:NB; [right|left]; (split; [reflexivity|]).
  - pose proof (leading_ws_rstrip raw NB) as W.
    rewrite <- W, <- leading_ws_length.
    revert NB. unfold nonblank, line_node, depth_of.
    destruct (str_eqb (lstrip (rstrip_chars [LF] raw)) []); [discriminate|].
    intros _. destruct (Z.eqb_spec indent_size 0) as [E|_]; [contradiction|].
    cbn [bind].
    destruct (startswith (py "//") _); [|destruct (split_colon _) as [[tg vl]|]];
      eexists; (split; [reflexivity|]); simpl; auto.
  - revert NB. unfold nonblank, line_node.
    destruct (str_eqb (lstrip (rstrip_chars [LF] raw)) []); [reflexivity|].
    discriminate.
Qed.

Lemma div_negative (n b : Z) : 0 < n -> b < 0 -> n / b <= -1.
Proof.
  intros Hn Hb. rewrite <- (Z.div_opp_opp n b) by lia.
  assert (- n / - b < 0); [|lia].
  apply Z.div_lt_upper_bound; lia.
Qed.

Section NegativeIndent.

Variable indent_size : Z.
Hypothesis indent_neg : indent_size < 0.

(** The frames when every line so far stood at depth 0: the root, with
    the last line's node open above it if there was a line. *)
Let frames_of (r : OTUINode) (open : option OTUINode) : fstate :=
  match open with
  | None => (r, [])
  | Some n => (n, [r])
  end.

Lemma frun_negative (lines : list str) (r : OTUINode) (open : option OTUINode) :
  depth r = -1 ->
  (forall n, open = Some n -> depth n = 0) ->
  (existsb indented lines = true ->
   frun indent_size (frames_of r open) lines = Raise IndexError)
  /\ (existsb indented lines = false ->
      exists st,
        frun indent_size (frames_of r open) lines = Ok st
        /\ zip (fst st) (snd st)
           = fold_left add_child (line_nodes indent_size lines)
                       (zip (fst (frames_of r open)) (snd (frames_of r open)))).
Proof.
  revert r open; induction lines as [|raw rest IH]; intros r open Hr Ho.
  - split; [discriminate|]. intros _. exists (frames_of r open). split; reflexivity.
  - unfold line_nodes. cbn [frun existsb flat_map]. unfold indented at 1 3.
    destruct (line_node_nonzero indent_size raw ltac:(lia))
      as [[-> ->]|(-> & node & -> & Hc & Hd)]; cbn [bind andb orb app].
    + apply IH; assumption.
    + unfold fstep.
      assert (W : 0 <= leading_ws raw).
      { unfold leading_ws, len. lia. }
      destruct (Z.ltb_spec 0 (leading_ws raw)) as [Hw|Hw]; cbn [orb].
      * (* an indented line: its depth is below the root's *)
        pose proof (div_negative _ _ Hw indent_neg) as Hneg.
        rewrite <- Hd in Hneg.
        split; [intros _|discriminate].
        destruct open as [n|]; cbn [frames_of fst snd flush].
        -- rewrite (Ho n eq_refl).
           destruct (Z.leb_spec (depth node) 0); [|lia].
           cbn [add_child depth]. rewrite Hr.
           destruct (Z.leb_spec (depth node) (-1)); [reflexivity|lia].
        -- rewrite Hr.
           destruct (Z.leb_spec (depth node) (-1)); [reflexivity|lia].
      * (* a line at depth 0: the next child of the root *)
        assert (Hz : depth node = 0).
        { rewrite Hd. replace (leading_ws raw) with 0 by lia. apply Z.div_0_l. lia. }
        destruct open as [n|]; cbn [frames_of fst snd flush].
        -- rewrite (Ho n eq_refl), Hz. cbn [Z.leb Z.compare].
           cbn [add_child depth]. rewrite Hr. cbn [Z.leb Z.compare bind].
           destruct (IH (add_child r n) (Some node)) as [R1 R2];
             [exact Hr|intros m [= <-]; exact Hz|].
           split; [exact R1|]. intros E.
           destruct (R2 E) as (st & R & Z). exists st. split; [exact R|].
           rewrite Z. reflexivity.
        -- rewrite Hr, Hz. cbn [Z.leb Z.compare bind].
           destruct (IH r (Some node)) as [R1 R2];
             [exact Hr|intros m [= <-]; exact Hz|].
           split; [exact R1|]. intros E.
           destruct (R2 E) as (st & R & Z). exists st. split; [exact R|].
           rewrite Z. reflexivity.
Qed.

End NegativeIndent.

(** X5. With a negative indent size, [parse_text] raises IndexError as
    soon as a non-blank line starts with whitespace: its depth is under
    the root's, so the root is popped from the stack.  Without such a line
    every line is a child of the root. *)
Theorem parse_text_negative_indent (indent_size : Z) (text : str) :
  indent_size < 0 ->
  parse_text indent_size text
  = if existsb indented (splitlines text) then Raise IndexError
    else Ok (Node (py "Root") [] (-1) (line_nodes indent_size (splitlines text))).
Proof.
  intros Hneg.
  destruct (frun_negative indent_size Hneg (splitlines text) root0 None)
    as [R1 R2]; [reflexivity|discriminate|].
  rewrite parse_text_frames. cbn in R1, R2.
  destruct (existsb indented (splitlines text)).
  - now rewrite R1.
  - destruct (R2 eq_refl) as (st & R & Z). rewrite R. cbn [bind].
    rewrite Z. unfold root0. now rewrite add_children_node.
Qed.

Lemma parse_text_negative_indent_witness :
  parse_text (-2) (text_of ["a"; "b: 1"; " c"]%string) = Raise IndexError
  /\ parse_text (-2) (text_of ["a"; ""; "b: 1"]%string)
     = Ok (Node (py "Root") [] (-1)
             [Node (py "a") [] 0 []; Node (py "b") (py "1") 0 []]).
Proof.
  split.
  - rewrite parse_text_negative_indent by lia. reflexivity.
  - rewrite parse_text_negative_indent by lia. reflexivity.
Defined.

(** ** Line endings *)

Lemma splitlines_crlf_line (cur l rest : str) :
  no_break l = true ->
  splitlines_from false cur (l ++ CR :: LF :: rest)
  = (rev cur ++ l) :: splitlines_from false [] rest.
Proof.
  revert cur; induction l as [|c l IH]; intros cur H; simpl.
  - now rewrite app_nil_r.
  - simpl in H. apply andb_true_iff in H as [H1 H2].
    apply negb_true_iff in H1. rewrite H1, IH by exact H2.
    simpl. now rewrite <- app_assoc.
Qed.

Lemma splitlines_concat_crlf (lines : list str) :
  forallb no_break lines = true ->
  splitlines (concat (map (fun l => l ++ [CR; LF]) lines)) = lines.
Proof.
  unfold splitlines. induction lines as [|l lines IH]; intros H; simpl;
    [reflexivity|].
  simpl in H. apply andb_true_iff in H as [H1 H2].
  rewrite <- app_assoc. simpl. rewrite splitlines_crlf_line by exact H1.
  simpl. now rewrite IH.
Qed.

Lemma splitlines_last_line (cur l : str) :
  no_break l = true ->
  splitlines_from false cur l
  = match rev cur ++ l with [] => [] | _ :: _ => [rev cur ++ l] end.
Proof.
  revert cur; induction l as [|c l IH]; intros cur H.
  - cbn [splitlines_from]. rewrite app_nil_r.
    destruct cur as [|x cur]; [reflexivity|].
    destruct (rev (x :: cur)) eqn:E; [|reflexivity].
    apply (f_equal (@length char)) in E. rewrite length_rev in E. discriminate.
  - simpl in H. apply andb_true_iff in H as [H1 H2].
    apply negb_true_iff in H1. cbn [splitlines_from andb]. rewrite H1.
    rewrite IH by exact H2. cbn [rev]. now rewrite <- app_assoc.
Qed.

Lemma splitlines_join (l : str) (lines : list str) :
  forallb no_break (l :: lines) = true ->
  splitlines (join [LF] (l :: lines))
  = match lines with
    | [] => match l with [] => [] | _ :: _ => [l] end
    | l' :: rest => l :: splitlines (join [LF] (l' :: rest))
    end.
Proof.
  intros H. cbn [forallb] in H. apply andb_true_iff in H as [H1 H2].
  unfold splitlines. destruct lines as [|l' rest].
  - cbn [join]. now rewrite splitlines_last_line.
  - change (join [LF] (l :: l' :: rest)) with (l ++ LF :: join [LF] (l' :: rest)).
    now rewrite splitlines_line.
Qed.

Lemma parse_lines_join (indent_size : Z) (lines : list str) (st : pstate) :
  forallb no_break lines = true ->
  parse_lines indent_size st (splitlines (join [LF] lines))
  = parse_lines indent_size st lines.
Proof.
  revert st; induction lines as [|l lines IH]; intros st H; [reflexivity|].
  rewrite splitlines_join by exact H.
  cbn [forallb] in H. apply andb_true_iff in H as [H1 H2].
  destruct lines as [|l' rest].
  - destruct l as [|c l]; [|reflexivity].
    cbn [parse_lines]. destruct st as [root stack]. reflexivity.
  - cbn [parse_lines]. destruct (parse_line indent_size st l); cbn [bind];
      [now apply IH|reflexivity].
Qed.

(** X6. A text parses the same whether its lines end in a line feed or in
    a carriage return and a line feed, and whether or not the last line
    has its line ending. *)
Theorem parse_text_line_endings (indent_size : Z) (lines : list str) :
  forallb no_break lines = true ->
  parse_text indent_size (concat (map (fun l => l ++ [CR; LF]) lines))
  = parse_text indent_size (concat (map (fun l => l ++ [LF]) lines))
  /\ parse_text indent_size (join [LF] lines)
     = parse_text indent_size (concat (map (fun l => l ++ [LF]) lines)).
Proof.
  intros H. unfold parse_text.
  rewrite splitlines_concat_crlf, splitlines_concat by exact H.
  split; [reflexivity|]. now rewrite parse_lines_join.
Qed.

Lemma parse_text_line_endings_witness :
  parse_text 2 (py "a" ++ [CR; LF] ++ py "  b: 1" ++ [CR; LF])
  = parse_text 2 (text_of ["a"; "  b: 1"]%string)
  /\ parse_text 2 (py "a" ++ [LF] ++ py "  b: 1")
     = parse_text 2 (text_of ["a"; "  b: 1"]%string).
Proof.
  apply (parse_text_line_endings 2 [py "a"; py "  b: 1"]). reflexivity.
Defined.

(** ** The image sources of a tree *)

Lemma walk_sources_nodes (h : Host) (n : OTUINode) :
  forall found,
    walk_sources h n found
    = found ++ map (fun m => unquote (value m)) (filter (is_image_source h) (nodes n)).
Proof.
  induction n as [t v d cs IH] using OTUINode_ind. intros found.
  cbn [walk_sources nodes filter]. unfold is_image_source at 1. cbn [tag value].
  assert (F : forall l acc,
    Forall (fun c => forall found, walk_sources h c found
                     = found ++ map (fun m => unquote (value m))
                                    (filter (is_image_source h) (nodes c))) l ->
    fold_left (fun found ch => walk_sources h ch found) l acc
    = acc ++ map (fun m => unquote (value m))
                 (filter (is_image_source h) (flat_map nodes l))).
  { clear. intros l acc H. revert acc.
    induction H as [|c l Hc _ IHl]; intros acc; cbn [fold_left flat_map].
    - now rewrite app_nil_r.
    - rewrite Hc, IHl, filter_app, map_app, app_assoc. reflexivity. }
  rewrite (F cs _ IH).
  destruct (str_eqb (lower h t) (py "image-source") && negb (str_eqb v []));
    cbn [map app]; [|reflexivity].
  rewrite <- app_assoc. reflexivity.
Qed.

(** X7. [collect_image_sources] gives, in pre-order and with repeats, the
    value of every node of the tree, at any depth, whose tag is
    image-source in any case and whose value is not empty; each value is
    stripped of outer whitespace, then of single, then of double
    quotes. *)
Theorem collect_image_sources_preorder (h : Host) (root : OTUINode) :
  collect_image_sources h root
  = map (fun m => unquote (value m)) (filter (is_image_source h) (nodes root)).
Proof. unfold collect_image_sources. now rewrite walk_sources_nodes. Qed.

(** ** What [resolve_image] returns *)

Lemma find_first {A} (f : A -> bool) (l : list A) (x : A) :
  find f l = Some x ->
  exists pre post, l = pre ++ x :: post /\ f x = true
    /\ forall y, In y pre -> f y = false.
Proof.
  induction l as [|a l IH]; cbn [find]; [discriminate|].
  destruct (f a) eqn:E.
  - intros [= <-]. exists [], l. repeat split; auto. intros y [].
  - intros H. destruct (IH H) as (pre & post & -> & Hx & Hpre).
    exists (a :: pre), post. repeat split; auto.
    intros y [<-|Hy]; auto.
Qed.

(** X8. What [resolve_image] returns exists: it is the canonical form of
    the first candidate whose canonical form exists.  It returns nothing
    when the value is empty or when no candidate exists. *)
Theorem resolve_image_sound (h : Host) (images_base : option Path)
    (otui_dir : Path) (val : str) :
  (forall p,
     resolve_image h images_base otui_dir val = Some p ->
     path_exists h p = true
     /\ exists pre c post,
          candidates h images_base otui_dir (normalize val) = pre ++ c :: post
          /\ p = path_resolve h c
          /\ forall c', In c' pre -> path_exists h (path_resolve h c') = false)
  /\ (resolve_image h images_base otui_dir val = None <->
      val = []
      \/ forall c, In c (candidates h images_base otui_dir (normalize val)) ->
                   path_exists h (path_resolve h c) = false).
Proof.
  unfold resolve_image. destruct val as [|x val].
  - split; [discriminate|]. split; auto.
  - rewrite first_existing_find by (intros s []).
    set (cs := candidates h images_base otui_dir (normalize (x :: val))).
    split.
    + intros p H. destruct (find_first _ _ _ H) as (pre & post & E & Hp & Hpre).
      split; [exact Hp|].
      clear H. revert pre post E Hpre.
      induction cs as [|c cs IH]; intros pre post E Hpre.
      * destruct pre; discriminate.
      * destruct pre as [|q pre]; cbn [map app] in E.
        -- injection E as E1 E2. exists [], c, cs.
           split; [reflexivity|]. split; [now symmetry|]. intros c' [].
        -- injection E as E1 E2.
           destruct (IH pre post E2) as (pre' & c0 & post' & -> & Hc & Hpre').
           { intros y Hy. apply Hpre. now right. }
           exists (c :: pre'), c0, post'.
           split; [reflexivity|]. split; [exact Hc|].
           intros c' [<-|Hc']; [|now apply Hpre'].
           rewrite E1. apply Hpre. now left.
    + split.
      * intros H. right. intros c Hc.
        apply (find_none _ _ H). now apply in_map.
      * intros [H|H]; [discriminate|].
        destruct (find (path_exists h) (map (path_resolve h) cs)) as [p|] eqn:F;
          [|reflexivity].
        apply find_some in F as [Hin Hp].
        apply in_map_iff in Hin as (c & <- & Hc). rewrite (H c Hc) in Hp.
        discriminate.
Qed.

Lemma base_candidates_ext (b : Path) (v : str) :
  name (parse_path v) <> [] ->
  snd (splitext (name (parse_path v))) <> [] ->
  base_candidates b v = [join_str b v].
Proof.
  intros Hn He. unfold base_candidates. rewrite name_join_str by exact Hn.
  destruct (snd (splitext (name (parse_path v)))); [contradiction|reflexivity].
Qed.

(** X9. A value that is not empty and whose normalized form ends in a
    name with an extension is looked up as it is: under the images base
    when there is one, then under the document directory, then as any
    file of that name, in any case, found walking the document directory;
    the first of these whose canonical form exists is the result.  No
    image extension is tried. *)
Theorem resolve_with_extension (h : Host) (images_base : option Path)
    (otui_dir : Path) (val : str) :
  val <> [] ->
  name (parse_path (normalize val)) <> [] ->
  snd (splitext (name (parse_path (normalize val)))) <> [] ->
  resolve_image h images_base otui_dir val
  = find (path_exists h)
      (map (path_resolve h)
         ((match images_base with
           | Some base => [join_str base (normalize val)]
           | None => []
           end)
          ++ join_str otui_dir (normalize val)
          :: basename_candidates h otui_dir (normalize val))).
Proof.
  intros Hval Hn He. unfold resolve_image.
  destruct val as [|c val]; [contradiction|].
  rewrite first_existing_find by (intros s []).
  unfold candidates. rewrite (base_candidates_ext otui_dir _ Hn He).
  destruct images_base as [base|]; [|reflexivity].
  now rewrite (base_candidates_ext base _ Hn He).
Qed.

Lemma resolve_with_extension_witness :
  resolve_image host_play None (parse_path (py "/ui")) (py "PLAY.PNG")
  = Some (parse_path (py "/ui/images/icons/play.png")).
Proof.
  rewrite resolve_with_extension; [reflexivity|discriminate|discriminate|discriminate].
Defined.

(** ** Separators *)











(** ** The scan by names *)

(** [max] gives the first entry with the greatest value. *)
Lemma max_entry_first (rest : dict) (kv0 : str * nat) :
  let m := fold_left (fun best kv => if (snd best <? snd kv)%nat then kv else best)
                     rest kv0 in
  (m = kv0 /\ forall x, In x rest -> (snd x <= snd kv0)%nat)
  \/ (exists pre post,
        rest = pre ++ m :: post
        /\ (snd kv0 < snd m)%nat
        /\ (forall x, In x pre -> (snd x < snd m)%nat)
        /\ (forall x, In x post -> (snd x <= snd m)%nat)).
Proof.
  revert kv0; induction rest as [|kv rest IH]; intros kv0; cbn [fold_left].
  - left. split; [reflexivity|]. intros x [].
  - destruct (IH (if (snd kv0 <? snd kv)%nat then kv else kv0))
      as [[E Hall]|(pre & post & E & Hlt & Hpre & Hpost)].
    + destruct (Nat.ltb_spec (snd kv0) (snd kv)) as [L|L].
      * right. exists [], rest. rewrite E. repeat split; auto.
        intros x [].
      * left. split; [exact E|]. intros x [<-|Hx]; auto.
    + right. exists (kv :: pre), post.
      cbv zeta in *.
      set (m := fold_left _ rest _) in *.
      split; [now rewrite E at 1|].
      destruct (Nat.ltb_spec (snd kv0) (snd kv)) as [L|L].
      * repeat split; auto; try lia. intros x [<-|Hx]; auto.
      * repeat split; auto. intros x [<-|Hx]; auto. lia.
Qed.

Lemma max_key_first (d : dict) (k : str) :
  max_key d = Some k ->
  exists pre v post,
    d = pre ++ (k, v) :: post
    /\ (forall x, In x pre -> (snd x < v)%nat)
    /\ (forall x, In x post -> (snd x <= v)%nat).
Proof.
  unfold max_key. destruct d as [|kv0 rest]; [discriminate|].
  intros [= E].
  destruct (max_entry_first rest kv0) as [[Em Hall]|(pre & post & Er & Hlt & Hpre & Hpost)];
    cbv zeta in *.
  - rewrite Em in E. exists [], (snd kv0), rest.
    destruct kv0 as [k0 v0]. cbn [fst snd] in *. subst k0.
    repeat split; auto. intros x [].
  - set (m := fold_left _ rest kv0) in *.
    exists (kv0 :: pre), (snd m), post.
    destruct m as [km vm]. cbn [fst snd] in *. subst km.
    split; [now rewrite Er|]. split; [|exact Hpost].
    intros x [<-|Hx]; auto.
Qed.

Lemma dict_set_new (d : dict) (k : str) (v : nat) :
  ~ In k (map fst d) -> dict_set d k v = d ++ [(k, v)].
Proof.
  induction d as [|[k0 v0] d IH]; cbn [dict_set map fst In app];
    [reflexivity|].
  intros H. destruct (str_eqb k0 k) eqn:E.
  - apply str_eqb_eq in E. tauto.
  - rewrite IH by tauto. reflexivity.
Qed.

Section NameScan.

Variable h : Host.
Variable names : list str.

(** The directories that hold a name, each with its count, in the order
    of the walk. *)
Let counted (walk : list (str * list str * list str)) : dict :=
  filter (fun kv => (0 <? snd kv)%nat)
         (map (fun e => (dirpath e, held names e)) walk).

Lemma name_hits_step (hits : dict) (e : str * list str * list str) :
  (let '(r, _, files) := e in
   let common := filter (fun f => mem_str f names) (as_set files) in
   match common with
   | _ :: _ => dict_set hits r (length common)
   | [] => hits
   end)
  = if (0 <? held names e)%nat then dict_set hits (dirpath e) (held names e)
    else hits.
Proof.
  destruct e as [[r ds] files]. unfold held, dirpath, filenames. cbn [fst snd].
  destruct (filter _ (as_set files)); reflexivity.
Qed.

Lemma name_hits_counted (walk : list (str * list str * list str)) (d : dict) :
  NoDup (map fst d ++ map dirpath walk) ->
  fold_left
    (fun hits '(r, _, files) =>
       let common := filter (fun f => mem_str f names) (as_set files) in
       match common with
       | _ :: _ => dict_set hits r (length common)
       | [] => hits
       end) walk d
  = d ++ counted walk.
Proof.
  unfold counted.
  revert d; induction walk as [|e walk IH]; intros d ND;
    cbn [fold_left map filter].
  - now rewrite app_nil_r.
  - rewrite name_hits_step. cbn [snd].
    cbn [map] in ND.
    destruct (0 <? held names e)%nat.
    + rewrite dict_set_new.
      * rewrite IH; [now rewrite <- app_assoc|].
        rewrite map_app. cbn [map fst]. rewrite <- app_assoc. exact ND.
      * intros Hin. apply NoDup_remove_2 in ND. apply ND.
        apply in_or_app. now left.
    + apply IH. now apply NoDup_remove_1 in ND.
Qed.

(** An entry of [counted] comes from a directory of the walk, and what
    stands before and after it from the directories before and after. *)
Lemma counted_split (walk : list (str * list str * list str))
    (pre post : dict) (k : str) (v : nat) :
  counted walk = pre ++ (k, v) :: post ->
  exists wpre e wpost,
    walk = wpre ++ e :: wpost
    /\ dirpath e = k /\ held names e = v /\ (0 < v)%nat
    /\ counted wpre = pre /\ counted wpost = post.
Proof.
  unfold counted.
  revert pre; induction walk as [|e walk IH]; intros pre E;
    cbn [map filter] in E.
  - destruct pre; discriminate.
  - cbn [snd] in E. destruct (Nat.ltb_spec 0 (held names e)) as [L|L].
    + destruct pre as [|x pre]; cbn [app] in E.
      * injection E as E1 E2 E3. exists [], e, walk.
        repeat split; auto. lia.
      * injection E as E1 E2.
        destruct (IH pre E2) as (wpre & e' & wpost & -> & Hk & Hv & Hp & Hpre & Hpost).
        exists (e :: wpre), e', wpost. repeat split; auto.
        cbn [map filter snd].
        destruct (Nat.ltb_spec 0 (held names e)); [|lia].
        now rewrite Hpre, E1.
    + destruct (IH pre E) as (wpre & e' & wpost & -> & Hk & Hv & Hp & Hpre & Hpost).
      exists (e :: wpre), e', wpost. repeat split; auto.
      cbn [map filter snd].
      destruct (Nat.ltb_spec 0 (held names e)); [lia|exact Hpre].
Qed.

Lemma counted_bound (walk : list (str * list str * list str)) (v : nat)
    (strict : bool) :
  (0 < v)%nat ->
  (forall x, In x (counted walk) ->
     if strict then (snd x < v)%nat else (snd x <= v)%nat) ->
  forall e, In e walk ->
    if strict then (held names e < v)%nat else (held names e <= v)%nat.
Proof.
  intros Hv H e He.
  destruct (Nat.ltb_spec 0 (held names e)) as [L|L].
  - apply (H (dirpath e, held names e)). unfold counted.
    apply filter_In. split.
    + apply in_map_iff. now exists e.
    + cbn [snd]. now apply Nat.ltb_lt.
  - destruct strict; lia.
Qed.

End NameScan.

(** X11. When none of the known names is a directory and some directory
    of the walk holds a file named like an image of the tree, the result
    is the directory that holds the most such names, the first one of the
    walk on a tie.  It is returned as the walk names it; the scripts are
    not read.  (The walk yields each directory once.) *)
Theorem name_scan (h : Host) (otui_path : Path) (root : OTUINode) :
  (forall d, In d LIKELY_DIRS -> is_dir h (join_str (parent otui_path) d) = false) ->
  NoDup (map dirpath (os_walk h (parent otui_path))) ->
  (exists e, In e (os_walk h (parent otui_path))
             /\ (0 < held (image_names h root) e)%nat) ->
  exists pre e post,
    os_walk h (parent otui_path) = pre ++ e :: post
    /\ (0 < held (image_names h root) e)%nat
    /\ (forall x, In x pre ->
          (held (image_names h root) x < held (image_names h root) e)%nat)
    /\ (forall x, In x post ->
          (held (image_names h root) x <= held (image_names h root) e)%nat)
    /\ discover_images_base h otui_path root = Some (parse_path (dirpath e)).
Proof.
  intros H1 ND (e0 & He0 & Hpos).
  set (names := image_names h root) in *.
  set (walk := os_walk h (parent otui_path)) in *.
  assert (Hits : name_hits h (parent otui_path) names
                 = filter (fun kv => (0 <? snd kv)%nat)
                          (map (fun e => (dirpath e, held names e)) walk)).
  { unfold name_hits. fold walk. now rewrite name_hits_counted. }
  assert (NE : In (dirpath e0, held names e0) (name_hits h (parent otui_path) names)).
  { rewrite Hits. apply filter_In. split.
    - apply in_map_iff. now exists e0.
    - cbn [snd]. now apply Nat.ltb_lt. }
  destruct (max_key (name_hits h (parent otui_path) names)) as [best|] eqn:M.
  - destruct (max_key_first _ _ M) as (dpre & v & dpost & E & Hpre & Hpost).
    rewrite Hits in E.
    destruct (counted_split names walk dpre dpost best v E)
      as (wpre & e & wpost & Ew & Hk & Hv & Hp & Cpre & Cpost).
    exists wpre, e, wpost. rewrite Hv.
    split; [exact Ew|]. split; [exact Hp|].
    split; [|split].
    + apply (counted_bound names wpre v true Hp). now rewrite Cpre.
    + apply (counted_bound names wpost v false Hp). now rewrite Cpost.
    + unfold discover_images_base.
      rewrite (likely_dir_none h _ _ H1).
      change (as_set (map (fun v => name (parse_path v)) (collect_image_sources h root)))
        with names.
      now rewrite M, Hk.
  - unfold max_key in M.
    destruct (name_hits h (parent otui_path) names); [destruct NE|discriminate].
Qed.

Lemma name_scan_witness :
  (exists pre e post,
     os_walk host_gfx (parent (parse_path (py "/ui/main.otui"))) = pre ++ e :: post
     /\ discover_images_base host_gfx (parse_path (py "/ui/main.otui"))
          (Node (py "Root") [] (-1)
             [Node (py "Image-Source") (py "'/icons/play.png'") 0 [];
              Node (py "Button") [] 0
                [Node (py "image-source") (py "stop.png") 1 []]])
        = Some (parse_path (dirpath e)))
  /\ discover_images_base host_gfx (parse_path (py "/ui/main.otui"))
       (Node (py "Root") [] (-1)
          [Node (py "Image-Source") (py "'/icons/play.png'") 0 [];
           Node (py "Button") [] 0
             [Node (py "image-source") (py "stop.png") 1 []]])
     = Some (parse_path (py "/ui/gfx")).
Proof.
  split; [|reflexivity].
  destruct (name_scan host_gfx (parse_path (py "/ui/main.otui"))
              (Node (py "Root") [] (-1)
                 [Node (py "Image-Source") (py "'/icons/play.png'") 0 [];
                  Node (py "Button") [] 0
                    [Node (py "image-source") (py "stop.png") 1 []]]))
    as (pre & e & post & E & _ & _ & _ & D).
  - intros d Hd. simpl in Hd.
    repeat (destruct Hd as [<-|Hd]; [reflexivity|]). destruct Hd.
  - repeat constructor; simpl; intuition discriminate.
  - exists (py "/ui/gfx", [], [py "play.png"; py "stop.png"]).
    split; [simpl; tauto|]. vm_compute. lia.
  - exists pre, e, post. split; [exact E|exact D].
Defined.

(** ** The tree widget *)

Lemma QTreeWidgetItem_ind (P : QTreeWidgetItem -> Prop) :
  (forall t0 t1 kids, Forall P kids -> P (Item t0 t1 kids)) ->
  forall it, P it.
Proof.
  intros H. fix IH 1. intros [t0 t1 kids]. apply H.
  induction kids as [|k kids IHk]; constructor; [apply IH|apply IHk].
Qed.

Lemma add_items (node : OTUINode) :
  forall pitem,
    add pitem node
    = Item (text0 pitem) (text1 pitem) (items pitem ++ map item_of (children node)).
Proof.
  induction node as [t v d cs IH] using OTUINode_ind. intros pitem.
  cbn [add children]. revert pitem.
  induction IH as [|c cs Hc _ IHcs]; intros pitem.
  - cbn [fold_left map]. rewrite app_nil_r. now destruct pitem.
  - cbn [fold_left map]. rewrite IHcs. unfold addChild. cbn [text0 text1 items].
    rewrite Hc. cbn [text0 text1 items app]. rewrite <- app_assoc.
    destruct c; reflexivity.
Qed.

Lemma populate_tree_items (root : OTUINode) :
  populate_tree root = [Item (py "Root") [] (map item_of (children root))].
Proof. unfold populate_tree. now rewrite add_items. Qed.

Lemma rec_item_of (n : OTUINode) :
  forall d, rec (item_of n) d = redepth d n.
Proof.
  induction n as [t v dp cs IH] using OTUINode_ind. intros d.
  cbn [item_of rec redepth]. f_equal. rewrite map_map.
  induction IH as [|c cs Hc _ IHcs]; [reflexivity|].
  cbn [map]. now rewrite Hc, IHcs.
Qed.

Lemma rebuild_items (t0 t1 : str) (cs : list OTUINode) :
  root_from_tree_widget [Item t0 t1 (map item_of cs)]
  = Node (py "Root") [] (-1) (map (redepth 0) cs).
Proof.
  unfold root_from_tree_widget. cbn [items]. rewrite map_map.
  f_equal. apply map_ext. intros c. apply rec_item_of.
Qed.




(** X12. Filling the tree widget from a tree and reading the widget back
    gives the children of that tree with each stored depth replaced by the
    nesting level, under a new root; the tag, value and depth of the old
    root are not shown.  The tree read back is written as the old one is
    under the tag "Root". *)
Theorem tree_widget_round_trip (indent_size : Z) (root : OTUINode) :
  root_from_tree_widget (populate_tree root)
  = Node (py "Root") [] (-1) (map (redepth 0) (children root))
  /\ to_string indent_size (root_from_tree_widget (populate_tree root))
     = to_string indent_size
         (Node (py "Root") (value root) (depth root) (children root)).
Proof.
  rewrite populate_tree_items, rebuild_items. split; [reflexivity|].
  apply to_string_redepth.
Qed.

(** ** Editing a node *)

Lemma push_history_fields (e : Editor) (txt : str) :
  text (push_history e txt) = text e
  /\ tree (push_history e txt) = tree e
  /\ current_item (push_history e txt) = current_item e
  /\ exists rest, undo_stack (push_history e txt) = txt :: rest.
Proof.
  unfold push_history. destruct (undo_stack e) as [|top rest] eqn:U.
  - repeat split. now exists [].
  - destruct (str_eqb top txt) eqn:E.
    + repeat split. apply str_eqb_eq in E. subst top. now exists rest.
    + repeat split. now exists (top :: rest).
Qed.



(** ** Undo and redo *)

Lemma reparse_from_text_history (e : Editor) :
  text (reparse_from_text e false) = text e
  /\ undo_stack (reparse_from_text e false) = undo_stack e
  /\ redo_stack (reparse_from_text e false) = redo_stack e.
Proof.
  unfold reparse_from_text. destruct (parse_text 2 (text e)); repeat split.
Qed.

Lemma undo_history (shown : str -> str) (e : Editor) (txt : str) (rest : list str) :
  undo_stack e = txt :: rest ->
  text (undo shown e) = shown txt
  /\ undo_stack (undo shown e) = rest
  /\ redo_stack (undo shown e) = text e :: redo_stack e.
Proof.
  intros U. unfold undo. rewrite U.
  match goal with |- context [reparse_from_text ?x false] =>
    destruct (reparse_from_text_history x) as (-> & -> & ->) end.
  repeat split.
Qed.

Lemma redo_history (shown : str -> str) (e : Editor) (txt : str) (rest : list str) :
  redo_stack e = txt :: rest ->
  text (redo shown e) = shown txt
  /\ undo_stack (redo shown e) = text e :: undo_stack e
  /\ redo_stack (redo shown e) = rest.
Proof.
  intros R. unfold redo. rewrite R.
  match goal with |- context [reparse_from_text ?x false] =>
    destruct (reparse_from_text_history x) as (-> & -> & ->) end.
  repeat split.
Qed.

(** X14. After [apply_change] on a current item, [undo] shows the text
    from before the change again, and [redo] after it the changed text,
    when the text widget gives back these two texts as they were set. *)
Theorem undo_apply_change (shown : str -> str) (e : Editor) (it : list nat)
        (a b : str) :
  current_item e = Some it ->
  shown (text e) = text e ->
  shown (text (apply_change shown e a b)) = text (apply_change shown e a b) ->
  text (undo shown (apply_change shown e a b)) = text e
  /\ text (redo shown (undo shown (apply_change shown e a b)))
     = text (apply_change shown e a b).
Proof.
  intros Hc Hs Hi.
  destruct (push_history_fields e (text e)) as (_ & _ & _ & rest & U).
  assert (U' : undo_stack (apply_change shown e a b) = text e :: rest).
  { unfold apply_change. rewrite Hc. exact U. }
  destruct (undo_history shown _ _ _ U') as (T1 & _ & R1).
  split; [now rewrite T1|].
  destruct (redo_history shown _ _ _ R1) as (T2 & _ & _).
  now rewrite T2.
Qed.

Lemma undo_apply_change_witness :
  text (undo (fun t => t) (apply_change (fun t => t) editor_ab (py "x") []))
  = text editor_ab.
Proof.
  exact (proj1 (undo_apply_change (fun t => t) editor_ab [0; 0; 0]%nat (py "x") []
                  eq_refl eq_refl eq_refl)).
Defined.

(** X15. [undo] and [redo] move the text shown along the snapshots and
    neither drop nor add one: with snapshots that the text widget gives
    back as they were set, the snapshots of the undo stack, the text and
    those of the redo stack are in the same order after as before; and
    [redo] after an [undo] that had a snapshot to go back to gives the
    text and both stacks from before. *)
Theorem undo_redo_timeline (shown : str -> str) (e : Editor) :
  (forall t, In t (timeline e) -> shown t = t) ->
  timeline (undo shown e) = timeline e
  /\ timeline (redo shown e) = timeline e
  /\ (undo_stack e <> [] ->
      text (redo shown (undo shown e)) = text e
      /\ undo_stack (redo shown (undo shown e)) = undo_stack e
      /\ redo_stack (redo shown (undo shown e)) = redo_stack e).
Proof.
  intros Hs.
  assert (Ht : shown (text e) = text e).
  { apply Hs, in_or_app. right. now left. }
  assert (Hu : forall u us, undo_stack e = u :: us -> shown u = u).
  { intros u us U. apply Hs, in_or_app. left. rewrite U. cbn [rev].
    apply in_or_app. right. now left. }
  assert (Hr : forall r rs, redo_stack e = r :: rs -> shown r = r).
  { intros r rs R. apply Hs, in_or_app. right. right. rewrite R. now left. }
  split; [|split].
  - destruct (undo_stack e) as [|u us] eqn:U.
    + unfold undo. now rewrite U.
    + destruct (undo_history shown e u us U) as (T1 & U1 & R1).
      unfold timeline. rewrite T1, U1, R1, U, (Hu u us eq_refl).
      cbn [rev]. now rewrite <- app_assoc.
  - destruct (redo_stack e) as [|r rs] eqn:R.
    + unfold redo. now rewrite R.
    + destruct (redo_history shown e r rs R) as (T1 & U1 & R1).
      unfold timeline. rewrite T1, U1, R1, R, (Hr r rs eq_refl).
      cbn [rev]. now rewrite <- app_assoc.
  - intros N. destruct (undo_stack e) as [|u us] eqn:U; [contradiction|].
    destruct (undo_history shown e u us U) as (T1 & U1 & R1).
    destruct (redo_history shown _ _ _ R1) as (T2 & U2 & R2).
    rewrite T2, U2, R2, T1, U1, Ht, (Hu u us eq_refl). repeat split.
Qed.

Lemma undo_redo_timeline_witness :
  timeline (undo (fun t => t) editor_abcd) = [py "a"; py "b"; py "c"; py "d"].
Proof.
  exact (proj1 (undo_redo_timeline (fun t => t) editor_abcd (fun t _ => eq_refl))).
Defined.

(** ** Reading the text again *)

(** X16. [_reparse_from_text] never takes its error branch: for every text
    the parser of the editor returns a root, which becomes the current
    root and fills the tree widget, so that reading the widget back gives
    a tree that is written as the parsed one; the text stays, and with
    [push_history] the text is on top of the undo stack. *)
Theorem reparse_from_text_shows (e : Editor) (push : bool) :
  exists root,
    parse_text 2 (text e) = Ok root
    /\ current_root (reparse_from_text e push) = Some root
    /\ tree (reparse_from_text e push) = populate_tree root
    /\ to_string 2 (root_from_tree_widget (tree (reparse_from_text e push)))
       = to_string 2 root
    /\ text (reparse_from_text e push) = text e
    /\ (push = true ->
        exists rest, undo_stack (reparse_from_text e push) = text e :: rest).
Proof.
  assert (Hpos : 0 < 2) by lia.
  destruct (frun_total 2 Hpos (splitlines (text e)) root0 [])
    as (t & b & F & Ht & _); [simpl; lia|].
  assert (P : parse_text 2 (text e) = Ok (zip t b)).
  { now rewrite parse_text_frames, F. }
  destruct (zip_bottom b t) as [Hz _]. rewrite Ht in Hz. cbn [bottom tag root0] in Hz.
  exists (zip t b). split; [exact P|].
  unfold reparse_from_text. rewrite P.
  set (e1 := {| text := text e; undo_stack := undo_stack e;
                redo_stack := redo_stack e; current_root := Some (zip t b);
                tree := populate_tree (zip t b); current_item := None |}).
  assert (W : to_string 2 (root_from_tree_widget (populate_tree (zip t b)))
              = to_string 2 (zip t b)).
  { rewrite populate_tree_items, rebuild_items.
    destruct (zip t b) as [tg v d cs]. cbn [tag] in Hz. subst tg.
    apply to_string_redepth. }
  destruct push.
  - destruct (push_history_fields e1 (text e)) as (T & Tr & _ & rest & U).
    repeat split.
    + unfold push_history. destruct (undo_stack e1) as [|top r]; [reflexivity|].
      now destruct (str_eqb top (text e)).
    + rewrite Tr. reflexivity.
    + rewrite Tr. exact W.
    + rewrite T. reflexivity.
    + intros _. now exists rest.
  - repeat split; [exact W|discriminate].
Qed.
